(** * ghostunnel: the certificate watcher (watcher.go)

    A shallow embedding of [watcher.go]: the content-hash change detector
    ([hashFile], [hashFiles], [fileChanged]) and the two watch loops
    ([watchAuto], driven by fsnotify events, and [watchTimed], driven by a
    ticker), followed by the properties of the watcher's specification.

    Layout:
    - [path]:   [path.Base] of Go's standard library;
    - [sha256]: [crypto/sha256.Sum256] (FIPS 180-4) on 32-bit words held in [Z];
    - the effects of the program (file reads, fsnotify subscriptions, sends
      on the notify channel, log lines) as a trace written by a small monad;
    - the functions of watcher.go, in the order of the source;
    - the theorems. *)

From Stdlib Require Import ZArith NArith List String Ascii Lia.
From Stdlib Require Import Strings.Byte.
From stdpp Require Import base decidable option list gmap strings finite.

Import ListNotations.
Local Open Scope Z_scope.

(** ** Package [path]: the last element of a slash-separated path *)

Module path.

Definition isSlash (c : ascii) : bool := Ascii.eqb c "/"%char.

Fixpoint dropSlashes (l : list ascii) : list ascii :=
  match l with
  | c :: l' => if isSlash c then dropSlashes l' else l
  | [] => []
  end.

Fixpoint upToSlash (l : list ascii) : list ascii :=
  match l with
  | c :: l' => if isSlash c then [] else c :: upToSlash l'
  | [] => []
  end.

(** [path.Base]: the empty path gives ["."]; trailing slashes are stripped;
    what follows the last remaining slash is kept; a path of slashes only
    gives ["/"].  The source scans from the end of the string, so the
    characters are handled in reverse order here. *)
Definition Base (p : string) : string :=
  match p with
  | EmptyString => "."%string
  | _ =>
      let stripped := dropSlashes (rev (list_ascii_of_string p)) in
      match rev (upToSlash stripped) with
      | [] => "/"%string
      | elem => string_of_list_ascii elem
      end
  end.

End path.

(** ** Package [crypto/sha256] *)

Module sha256.

(** [uint32] arithmetic: sums wrap around at [2^32]. *)
Definition wrap (x : Z) : Z := x mod 2 ^ 32.
Definition add (x y : Z) : Z := wrap (x + y).
Definition rotr (n x : Z) : Z :=
  Z.lor (Z.shiftr x n) (wrap (Z.shiftl x (32 - n))).
Definition not32 (x : Z) : Z := Z.lxor x 0xffffffff.

Definition Ch (x y z : Z) : Z := Z.lxor (Z.land x y) (Z.land (not32 x) z).
Definition Maj (x y z : Z) : Z :=
  Z.lxor (Z.lxor (Z.land x y) (Z.land x z)) (Z.land y z).
Definition bsig0 (x : Z) : Z := Z.lxor (Z.lxor (rotr 2 x) (rotr 13 x)) (rotr 22 x).
Definition bsig1 (x : Z) : Z := Z.lxor (Z.lxor (rotr 6 x) (rotr 11 x)) (rotr 25 x).
Definition ssig0 (x : Z) : Z := Z.lxor (Z.lxor (rotr 7 x) (rotr 18 x)) (Z.shiftr x 3).
Definition ssig1 (x : Z) : Z := Z.lxor (Z.lxor (rotr 17 x) (rotr 19 x)) (Z.shiftr x 10).

(** The constants of FIPS 180-4, from their definition: the first 32 bits of
    the fractional parts of the cube roots (for [K]) and of the square roots
    (for the initial chaining value) of the first primes.  crypto/sha256
    holds them as the tables [_K] and [init0] to [init7]. *)
Definition isPrime (n : nat) : bool :=
  forallb (fun d => negb (Nat.eqb (n mod d) 0)) (seq 2 (n - 2)).

Definition primes : list Z :=
  map Z.of_nat (List.filter isPrime (seq 2 310)).

(** The integer cube root of [n], for [n] below [2^108], bit by bit. *)
Fixpoint root3 (bit : nat) (n r : Z) : Z :=
  match bit with
  | O => r
  | S b =>
      let r' := r + 2 ^ Z.of_nat b in
      root3 b n (if r' * r' * r' <=? n then r' else r)
  end.

Definition fracRoot3 (p : Z) : Z := wrap (root3 36 (p * 2 ^ 96) 0).
Definition fracRoot2 (p : Z) : Z := wrap (Z.sqrt (p * 2 ^ 64)).

Definition K : list Z := Eval vm_compute in map fracRoot3 primes.

(** The chaining value [d.h [8]uint32]. *)
Record state : Type := State {
  h0 : Z; h1 : Z; h2 : Z; h3 : Z; h4 : Z; h5 : Z; h6 : Z; h7 : Z
}.

Definition init : state :=
  Eval vm_compute in
    State (fracRoot2 2) (fracRoot2 3) (fracRoot2 5) (fracRoot2 7)
          (fracRoot2 11) (fracRoot2 13) (fracRoot2 17) (fracRoot2 19).

(** Big-endian conversions between bytes and words. *)
Definition byteZ (b : byte) : Z := Z.of_N (Byte.to_N b).
Definition Zbyte (z : Z) : byte :=
  match Byte.of_N (Z.to_N (z mod 256)) with
  | Some b => b
  | None => x00
  end.

Definition be32 (w : Z) : list byte :=
  [Zbyte (Z.shiftr w 24); Zbyte (Z.shiftr w 16); Zbyte (Z.shiftr w 8); Zbyte w].

Fixpoint words (l : list byte) : list Z :=
  match l with
  | a :: b :: c :: d :: l' =>
      (byteZ a * 2 ^ 24 + byteZ b * 2 ^ 16 + byteZ c * 2 ^ 8 + byteZ d)
        :: words l'
  | _ => []
  end.

(** Padding: a [0x80] byte, zero bytes up to 56 modulo 64, then the length
    of the message in bits as a 64-bit big-endian integer. *)
Definition padding (len : Z) : list byte :=
  let bits := (8 * len) mod 2 ^ 64 in
  [x80]
    ++ repeat x00 (Z.to_nat ((55 - len) mod 64))
    ++ be32 (Z.shiftr bits 32) ++ be32 bits.

(** The message schedule: [remaining] more words after the ones in [w]. *)
Fixpoint schedule (remaining : nat) (w : list Z) : list Z :=
  match remaining with
  | O => w
  | S r =>
      let t := length w in
      let at_ (back : nat) := nth (t - back) w 0 in
      schedule r
        (w ++ [add (add (ssig1 (at_ 2%nat)) (at_ 7%nat))
                   (add (ssig0 (at_ 15%nat)) (at_ 16%nat))])
  end.

Definition round (s : state) (kw : Z * Z) : state :=
  let t1 := add (add (add (add (h7 s) (bsig1 (h4 s))) (Ch (h4 s) (h5 s) (h6 s)))
                     (fst kw)) (snd kw) in
  let t2 := add (bsig0 (h0 s)) (Maj (h0 s) (h1 s) (h2 s)) in
  State (add t1 t2) (h0 s) (h1 s) (h2 s) (add (h3 s) t1) (h4 s) (h5 s) (h6 s).

(** One 64-byte block, given as 16 words. *)
Definition block (s : state) (m : list Z) : state :=
  let r := fold_left round (combine K (schedule 48 m)) s in
  State (add (h0 s) (h0 r)) (add (h1 s) (h1 r)) (add (h2 s) (h2 r))
        (add (h3 s) (h3 r)) (add (h4 s) (h4 r)) (add (h5 s) (h5 r))
        (add (h6 s) (h6 r)) (add (h7 s) (h7 r)).

Fixpoint blocks (n : nat) (s : state) (w : list Z) : state :=
  match n with
  | O => s
  | S n' => blocks n' (block s (firstn 16 w)) (skipn 16 w)
  end.

Definition checkSum (s : state) : list byte :=
  be32 (h0 s) ++ be32 (h1 s) ++ be32 (h2 s) ++ be32 (h3 s)
    ++ be32 (h4 s) ++ be32 (h5 s) ++ be32 (h6 s) ++ be32 (h7 s).

(** [sha256.Sum256]: the 32-byte digest of [data]. *)
Definition Sum256 (data : list byte) : list byte :=
  let padded := data ++ padding (Z.of_nat (length data)) in
  checkSum (blocks (length padded / 64) init (words padded)).

(** Hexadecimal rendering, as [hex.EncodeToString] gives it. *)
Definition hexdigit (n : Z) : ascii :=
  nth (Z.to_nat n) (list_ascii_of_string "0123456789abcdef") "0"%char.

Definition hex (l : list byte) : string :=
  string_of_list_ascii
    (flat_map (fun b => [hexdigit (byteZ b / 16); hexdigit (byteZ b mod 16)]) l).

End sha256.

(** ** The world of the watcher

    Go values as the program has them: a path and a base name are strings, the
    contents of a file are a byte slice, a digest is the [[32]byte] array of
    [sha256.Sum256], an [error] is kept by its message.  The hash store
    [map[string][32]byte] is a finite map from base names to digests. *)

Abbreviation Digest := (list byte) (only parsing).
Abbreviation Store := (gmap string (list byte)) (only parsing).

#[global] Instance byte_eq_decision : EqDecision byte := Byte.byte_eq_dec.

(** The zero value [[32]byte{}]: what [hashFile] returns next to an error and
    what indexing the store yields for a key it does not hold. *)
Definition zeroDigest : Digest := repeat x00 32.

(** [bytes.Equal]. *)
Definition bytes_Equal (a b : list byte) : bool := bool_decide (a = b).

(** The file system at the time of a call: what [ioutil.ReadFile] returns for
    each path, the contents or an error. *)
Definition FS : Type := string -> list byte + string.

(** What the program does to the outside: it reads files, registers paths with
    the fsnotify watcher, sends on the [notify] channel and writes log lines
    (format and arguments of each [logger.Printf]). *)
Inductive effect : Type :=
| ReadFile (file : string)
| Add (name : string)
| Send (v : bool)
| Printf (format : string) (args : list string).

#[global] Instance effect_eq_decision : EqDecision effect.
Proof. solve_decision. Defined.

(** A computation reads the file system and writes its effects in order. *)
Definition M (A : Type) : Type := FS -> A * list effect.

#[global] Instance M_ret : MRet M := fun A (a : A) (_ : FS) => (a, []).

#[global] Instance M_bind : MBind M :=
  fun A B (f : A -> M B) (m : M A) (fs : FS) =>
    let (a, t1) := m fs in
    let (b, t2) := f a fs in
    (b, t1 ++ t2).

Definition ioutil_ReadFile (file : string) : M (list byte + string) :=
  fun fs => (fs file, [ReadFile file]).

Definition watcher_Add (name : string) : M unit := fun _ => (tt, [Add name]).

Definition notify_send (v : bool) : M unit := fun _ => (tt, [Send v]).

Definition logger_Printf (format : string) (args : list string) : M unit :=
  fun _ => (tt, [Printf format args]).

(** Projections of a trace: the files read, the paths registered, the values
    sent on [notify]. *)
Definition reads (t : list effect) : list string :=
  omap (fun e => match e with ReadFile f => Some f | _ => None end) t.

Definition adds (t : list effect) : list string :=
  omap (fun e => match e with Add n => Some n | _ => None end) t.

Definition sent (t : list effect) : list bool :=
  omap (fun e => match e with Send v => Some v | _ => None end) t.

(** ** watcher.go *)

(** Read & hash a single file.  On a read error the source returns the zero
    array together with the error. *)
Definition hashFile (file : string) : M (Digest * option string) :=
  r ← ioutil_ReadFile file;
  match r with
  | inr err => mret (zeroDigest, Some err)
  | inl data => mret (sha256.Sum256 data, None)
  end.

(** Check if a file has changed contents, update hash.  The map is mutated in
    place by the source; here the updated map is returned with the result. *)
Definition fileChanged (hashes : Store) (file : string) : M (bool * Store) :=
  '(newHash, err) ← hashFile file;
  match err with
  | Some e =>
      logger_Printf "error reading file: %s" [e];;
      mret (false, hashes)
  | None =>
      let name := path.Base file in
      let oldHash := default zeroDigest (hashes !! name) in
      if negb (bytes_Equal oldHash newHash) then
        logger_Printf "sha256(%s) = %s" [name; sha256.hex newHash];;
        mret (true, <[name := newHash]> hashes)
      else
        mret (false, hashes)
  end.

(** Hash initial state of files we're watching: the [range] loop of
    [hashFiles], started on the map [make] returns. *)
Fixpoint hashFiles_range (hashes : Store) (files : list string) : M Store :=
  match files with
  | [] => mret hashes
  | file :: rest =>
      '(hash, err) ← hashFile file;
      match err with
      | Some e =>
          logger_Printf "error reading file: %s" [e];;
          hashFiles_range hashes rest
      | None =>
          let name := path.Base file in
          logger_Printf "sha256(%s) = %s" [name; sha256.hex hash];;
          hashFiles_range (<[name := hash]> hashes) rest
      end
  end.

Definition hashFiles (files : list string) : M Store := hashFiles_range ∅ files.

(** *** Timed mode *)

(** The inner [range] loop of [watchTimed]. *)
Fixpoint watchTimed_range (hashes : Store) (change : bool) (files : list string)
  : M (bool * Store) :=
  match files with
  | [] => mret (change, hashes)
  | file :: rest =>
      '(changed, hashes') ← fileChanged hashes file;
      if (changed : bool) then
        logger_Printf "detected change on %s, reloading" [path.Base file];;
        watchTimed_range hashes' true rest
      else
        watchTimed_range hashes' change rest
  end.

(** One iteration of the [for] loop of [watchTimed], after the ticker fired. *)
Definition watchTimed_tick (files : list string) (hashes : Store) : M Store :=
  logger_Printf "running timed reload (timer fired)" [];;
  '(change, hashes') ← watchTimed_range hashes false files;
  if (change : bool) then
    notify_send true;;
    mret hashes'
  else
    logger_Printf "nothing changed, not reloading" [];;
    mret hashes'.

(** A loop that never returns is observed on a finite prefix of its inputs:
    [step] is run once per input, each time on the file system of that
    moment, from the store and the trace reached so far. *)
Definition iterate {I : Type} (step : Store -> I -> M Store)
  (inputs : list (FS * I)) (start : Store * list effect) : Store * list effect :=
  fold_left
    (fun acc (i : FS * I) =>
       let (hashes', t) := step acc.1 i.2 i.1 in (hashes', acc.2 ++ t))
    inputs start.

(** [watchTimed], observed on the ticks in [ticks].  [time.Tick] returns a nil
    channel for a duration that is not positive, from which nothing is ever
    received: no tick is processed then. *)
Definition watchTimed (files : list string) (duration : Z)
  (fs0 : FS) (ticks : list (FS * unit)) : Store * list effect :=
  iterate (fun hashes _ => watchTimed_tick files hashes)
    (if duration <=? 0 then [] else ticks)
    (hashFiles files fs0).

(** *** Event-driven mode *)

(** [fsnotify.Event] and the bits of [fsnotify.Op]. *)
Record Event : Type := { Name : string; Op : Z }.

Definition Create : Z := 1.
Definition Write : Z := 2.
Definition Remove : Z := 4.
Definition Rename : Z := 8.
Definition Chmod : Z := 16.

(** What the [select] of [watchAuto] receives: an event or an error. *)
Inductive received : Type :=
| FromEvents (event : Event)
| FromErrors (err : string).

(** The body of the [range] loop of [watchAuto] for a file whose base name is
    the event's. *)
Definition watchAuto_matched (event : Event) (name : string) (hashes : Store)
  (file : string) : M Store :=
  logger_Printf "received fs event for %s" [name];;
  (if Z.land (Op event) Create =? Create then watcher_Add file else mret tt);;
  '(changed, hashes') ← fileChanged hashes file;
  if (changed : bool) then
    logger_Printf "detected change on %s" [name];;
    notify_send true;;
    mret hashes'
  else
    logger_Printf "no change on %s" [name];;
    mret hashes'.

(** The [range] loop over [files] run for one event; [break] ends it at the
    first file whose base name is the event's. *)
Fixpoint watchAuto_range (event : Event) (hashes : Store) (files : list string)
  : M Store :=
  match files with
  | [] => mret hashes
  | file :: rest =>
      let name := path.Base (Name event) in
      if String.eqb name (path.Base file) then
        watchAuto_matched event name hashes file
      else
        watchAuto_range event hashes rest
  end.

(** One iteration of the [for]/[select] loop of [watchAuto]. *)
Definition watchAuto_select (files : list string) (hashes : Store) (r : received)
  : M Store :=
  match r with
  | FromEvents event => watchAuto_range event hashes files
  | FromErrors err =>
      logger_Printf "error watching file: %s" [err];;
      mret hashes
  end.

(** Modelled from the spec: [panicOnError], which the repository defines
    outside watcher.go.  A fatal setup error aborts the watcher's startup:
    with an error there is no result, without one execution goes on. *)
Definition panicOnError (err : option string) : option unit :=
  match err with
  | Some _ => None
  | None => Some tt
  end.

Section WatchAuto.

(** [path.Dir] of Go's standard library, used only to name the directory
    subscriptions. *)
Variable Dir : string -> string.

(** The first loop of [watchAuto]: watch both the file and its directory. *)
Fixpoint watchAuto_register (files : list string) : M unit :=
  match files with
  | [] => mret tt
  | file :: rest =>
      watcher_Add file;;
      watcher_Add (Dir file);;
      watchAuto_register rest
  end.

(** [watchAuto], observed on the events and errors in [inputs].
    [newWatcher] is the error returned by [fsnotify.NewWatcher], if any; on
    a panic the function ends with no store. *)
Definition watchAuto (files : list string) (newWatcher : option string)
  (fs0 : FS) (inputs : list (FS * received)) : option Store * list effect :=
  let (hashes, t0) := hashFiles files fs0 in
  match panicOnError newWatcher with
  | None => (None, t0)
  | Some _ =>
      let (_, t1) := watchAuto_register files fs0 in
      let (hashes', t) := iterate (watchAuto_select files) inputs (hashes, t0 ++ t1) in
      (Some hashes', t)
  end.

End WatchAuto.

(** ** Test data *)

(** The bytes of a string literal. *)
Definition bytes (s : string) : list byte := list_byte_of_string s.

(** A file system holding the given files and nothing else. *)
Fixpoint disk (files : list (string * string)) : FS :=
  fun p =>
    match files with
    | [] => inr ("open " ++ p ++ ": no such file or directory")%string
    | (q, contents) :: rest =>
        if String.eqb p q then inl (bytes contents) else disk rest p
    end.

(** ** Notions used by the statements *)

(** Digests are numbered below [256^32], injectively. *)
Fixpoint digestN (l : list byte) : N :=
  match l with
  | [] => 0
  | b :: l' => Byte.to_N b + 256 * digestN l'
  end.

(** The store after the change detector ran on each of [files] in turn. *)
Definition checked (fs : FS) (hashes : Store) (files : list string) : Store :=
  fold_left (fun h file => (fileChanged h file fs).1.2) files hashes.

(** The first of [files] that an event is matched with. *)
Definition matched (event : Event) (files : list string) : option string :=
  List.find (fun file => String.eqb (path.Base (Name event)) (path.Base file)) files.

(** The store [hashFiles] builds, file by file: a file that is read puts its
    digest under its base name, a file that is not changes nothing. *)
Definition populate (fs : FS) (hashes : Store) (files : list string) : Store :=
  fold_left
    (fun h file =>
       match fs file with
       | inl data => <[path.Base file := sha256.Sum256 data]> h
       | inr _ => h
       end)
    files hashes.

(** Every key of the store is the base name of a watched file. *)
Definition keysWatched (files : list string) (hashes : Store) : Prop :=
  forall name, is_Some (hashes !! name) ->
               exists file, file ∈ files /\ path.Base file = name.

(** Every key of [h] is still a key of [h']. *)
Definition keeps (h h' : Store) : Prop :=
  forall name, is_Some (h !! name) -> is_Some (h' !! name).

(** [h'] comes from [h] by calls of the change detector on watched files. *)
Inductive evolves (files : list string) (h : Store) : Store -> Prop :=
| evolves_refl : evolves files h h
| evolves_check (h' : Store) (file : string) (fs : FS) :
    evolves files h h' -> file ∈ files ->
    evolves files h (fileChanged h' file fs).1.2.

(** Unfolds the monad down to pairs of a result and a trace. *)
Ltac run :=
  cbv [mbind M_bind mret M_ret ioutil_ReadFile watcher_Add notify_send
       logger_Printf hashFile]; cbn [app fst snd].

(** * Properties *)

#[global] Arguments sha256.Sum256 : simpl never.
#[global] Arguments sha256.hex : simpl never.
#[global] Arguments path.Base : simpl never.

(** ** The packages *)

Example Base_file : path.Base "/etc/ssl/cert.pem" = "cert.pem"%string.
Proof. reflexivity. Qed.

Example Base_trailing_slashes : path.Base "/etc/ssl///" = "ssl"%string.
Proof. reflexivity. Qed.

Example Base_only_slashes : path.Base "//" = "/"%string.
Proof. reflexivity. Qed.

Example Base_empty : path.Base "" = "."%string.
Proof. reflexivity. Qed.

Example K_ends :
  length sha256.K = 64%nat
  /\ nth 0 sha256.K 0 = 0x428a2f98 /\ nth 63 sha256.K 0 = 0xc67178f2.
Proof. vm_compute. auto. Qed.

Example init_ends :
  sha256.h0 sha256.init = 0x6a09e667 /\ sha256.h7 sha256.init = 0x5be0cd19.
Proof. vm_compute. auto. Qed.

Example Sum256_empty :
  sha256.hex (sha256.Sum256 [])
  = "e3b0c44298fc1c149afbf4c8996fb92427ae41e4649b934ca495991b7852b855"%string.
Proof. vm_compute. reflexivity. Qed.

Example Sum256_abc :
  sha256.hex (sha256.Sum256 (bytes "abc"))
  = "ba7816bf8f01cfea414140de5dae2223b00361a396177a9cb410ff61f20015ad"%string.
Proof. vm_compute. reflexivity. Qed.

Example Sum256_two_blocks :
  sha256.hex (sha256.Sum256 (repeat "a"%byte 56))
  = "b35439a4ac6f0948b6d6f9e3c6af0f5f590ce20f1bde7090ef7970686ec6738a"%string.
Proof. vm_compute. reflexivity. Qed.

(** A digest has 32 bytes, whatever the data. *)
Lemma Sum256_length (data : list byte) : length (sha256.Sum256 data) = 32%nat.
Proof. reflexivity. Qed.

Lemma digestN_bound (l : list byte) : (digestN l < 256 ^ N.of_nat (length l))%N.
Proof.
  induction l as [|b l IH].
  - simpl. lia.
  - cbn [digestN length]. rewrite Nat2N.inj_succ, N.pow_succ_r'.
    pose proof (Byte.to_N_bounded b). lia.
Qed.

Lemma to_N_inj (a b : byte) : Byte.to_N a = Byte.to_N b -> a = b.
Proof.
  intros E. pose proof (Byte.of_to_N a) as Ha. rewrite E, Byte.of_to_N in Ha.
  congruence.
Qed.

Lemma digestN_inj (l1 l2 : list byte) :
  length l1 = length l2 -> digestN l1 = digestN l2 -> l1 = l2.
Proof.
  revert l2. induction l1 as [|a l1 IH]; intros [|b l2] Hlen E; try discriminate.
  - reflexivity.
  - cbn [digestN] in E.
    pose proof (Byte.to_N_bounded a). pose proof (Byte.to_N_bounded b).
    assert (Byte.to_N a = Byte.to_N b) as Hab by lia.
    rewrite (to_N_inj _ _ Hab). f_equal. apply IH; [by inversion Hlen | lia].
Qed.

(** There are more byte strings than digests: two of the strings of zero
    bytes of lengths [0] to [256^32] have the same digest. *)
Lemma Sum256_collision :
  exists a b : list byte, a <> b /\ sha256.Sum256 a = sha256.Sum256 b.
Proof.
  pose (count := N.to_nat (256 ^ 32)).
  destruct (nat_pigeonhole
              (fun i => N.to_nat (digestN (sha256.Sum256 (repeat x00 i))))
              (S count) count) as (i & j & Hij & E).
  - apply Nat.lt_succ_diag_r.
  - intros k _. pose proof (digestN_bound (sha256.Sum256 (repeat x00 k))) as Hb.
    rewrite Sum256_length in Hb. change (N.of_nat 32) with 32%N in Hb.
    unfold count. apply Nat.compare_lt_iff. rewrite <- N2Nat.inj_compare.
    exact Hb.
  - exists (repeat x00 i), (repeat x00 j). split.
    + intros Heq. apply (f_equal (@length byte)) in Heq.
      rewrite !repeat_length in Heq. destruct Hij as [Hij _].
      rewrite Heq in Hij. exact (Nat.lt_irrefl _ Hij).
    + apply digestN_inj; [by rewrite !Sum256_length | by apply N2Nat.inj].
Qed.

(** ** Traces *)

Lemma reads_app (t1 t2 : list effect) : reads (t1 ++ t2) = reads t1 ++ reads t2.
Proof. apply omap_app. Qed.

Lemma adds_app (t1 t2 : list effect) : adds (t1 ++ t2) = adds t1 ++ adds t2.
Proof. apply omap_app. Qed.

Lemma sent_app (t1 t2 : list effect) : sent (t1 ++ t2) = sent t1 ++ sent t2.
Proof. apply omap_app. Qed.

(** ** The change detector *)

Lemma bytes_Equal_true (a b : list byte) : bytes_Equal a b = true <-> a = b.
Proof. unfold bytes_Equal. apply bool_decide_eq_true. Qed.

Lemma bytes_Equal_false (a b : list byte) : bytes_Equal a b = false <-> a <> b.
Proof. unfold bytes_Equal. apply bool_decide_eq_false. Qed.

(** [hashFile] returns the digest of the contents and no error, or the zero
    array and the error of the read. *)
Lemma hashFile_run (file : string) (fs : FS) :
  hashFile file fs
  = (match fs file with
     | inl data => (sha256.Sum256 data, None)
     | inr err => (zeroDigest, Some err)
     end, [ReadFile file]).
Proof. unfold hashFile. run. by destruct (fs file). Qed.

(** A failed read: nothing but the log line. *)
Lemma fileChanged_error (hashes : Store) (file : string) (fs : FS) (err : string) :
  fs file = inr err ->
  fileChanged hashes file fs
  = ((false, hashes), [ReadFile file; Printf "error reading file: %s" [err]]).
Proof. intros E. unfold fileChanged. run. by rewrite E. Qed.

(** A successful read: the digest is compared with the entry of the base name,
    or with the zero array when the store has no such entry. *)
Lemma fileChanged_ok (hashes : Store) (file : string) (fs : FS) (data : list byte) :
  fs file = inl data ->
  fileChanged hashes file fs
  = if bytes_Equal (default zeroDigest (hashes !! path.Base file))
         (sha256.Sum256 data)
    then ((false, hashes), [ReadFile file])
    else ((true, <[path.Base file := sha256.Sum256 data]> hashes),
          [ReadFile file;
           Printf "sha256(%s) = %s"
             [path.Base file; sha256.hex (sha256.Sum256 data)]]).
Proof.
  intros E. unfold fileChanged. run. rewrite E.
  by destruct (bytes_Equal _ _).
Qed.

(** The result is [true] exactly when the store was written, and what is
    written is the digest of the contents read, under the base name. *)
Lemma fileChanged_cases (hashes : Store) (file : string) (fs : FS) :
  (fileChanged hashes file fs).1 = (false, hashes)
  \/ exists data,
       fs file = inl data
       /\ default zeroDigest (hashes !! path.Base file) <> sha256.Sum256 data
       /\ (fileChanged hashes file fs).1
          = (true, <[path.Base file := sha256.Sum256 data]> hashes).
Proof.
  destruct (fs file) as [data|err] eqn:E.
  - rewrite (fileChanged_ok _ _ _ _ E).
    destruct (bytes_Equal _ _) eqn:Eq; [by left|].
    right. exists data. by apply bytes_Equal_false in Eq.
  - left. by rewrite (fileChanged_error _ _ _ _ E).
Qed.

(** Every call reads the file once, and nothing is sent or registered. *)
Lemma fileChanged_trace (hashes : Store) (file : string) (fs : FS) :
  let t := (fileChanged hashes file fs).2 in
  reads t = [file] /\ sent t = [] /\ adds t = [].
Proof.
  destruct (fs file) as [data|err] eqn:E.
  - rewrite (fileChanged_ok _ _ _ _ E). by destruct (bytes_Equal _ _).
  - by rewrite (fileChanged_error _ _ _ _ E).
Qed.

(** With no entry for the base name, a successful read counts as a change
    as soon as the digest is not the zero array, which is what the lookup of
    a missing key gives. *)
Lemma fileChanged_absent (hashes : Store) (file : string) (fs : FS) (data : list byte) :
  fs file = inl data ->
  hashes !! path.Base file = None ->
  sha256.Sum256 data <> zeroDigest ->
  (fileChanged hashes file fs).1
  = (true, <[path.Base file := sha256.Sum256 data]> hashes).
Proof.
  intros E Hnone Hnz. rewrite (fileChanged_ok _ _ _ _ E), Hnone. cbn [default id].
  destruct (bytes_Equal _ _) eqn:Eq; [|done].
  apply bytes_Equal_true in Eq. congruence.
Qed.

(** Were the digest the zero array, the missing entry would compare equal to
    it: no change is reported and nothing is inserted. *)
Lemma fileChanged_absent_zero (hashes : Store) (file : string) (fs : FS) (data : list byte) :
  fs file = inl data ->
  hashes !! path.Base file = None ->
  sha256.Sum256 data = zeroDigest ->
  (fileChanged hashes file fs).1 = (false, hashes).
Proof.
  intros E Hnone Hz. rewrite (fileChanged_ok _ _ _ _ E), Hnone, Hz. cbn [default id].
  destruct (bytes_Equal _ _) eqn:Eq; [done|].
  by apply bytes_Equal_false in Eq.
Qed.

(** ** The loops *)

Lemma watchTimed_range_app (hashes : Store) (change : bool) (l1 l2 : list string)
  (fs : FS) :
  watchTimed_range hashes change (l1 ++ l2) fs
  = let r1 := watchTimed_range hashes change l1 fs in
    let r2 := watchTimed_range r1.1.2 r1.1.1 l2 fs in
    (r2.1, r1.2 ++ r2.2).
Proof.
  revert hashes change. induction l1 as [|file l1 IH]; intros hashes change.
  - cbn. by destruct (watchTimed_range hashes change l2 fs).
  - cbn [app watchTimed_range]. run.
    destruct (fileChanged hashes file fs) as [[[] h] t]; run.
    + rewrite IH. cbn zeta.
      destruct (watchTimed_range h true l1 fs) as [[c1 h1] t1]. cbn [fst snd].
      destruct (watchTimed_range h1 c1 l2 fs) as [[c2 h2] t2]. cbn [fst snd].
      by rewrite <- !app_assoc.
    + rewrite IH. cbn zeta.
      destruct (watchTimed_range h change l1 fs) as [[c1 h1] t1]. cbn [fst snd].
      destruct (watchTimed_range h1 c1 l2 fs) as [[c2 h2] t2]. cbn [fst snd].
      by rewrite <- !app_assoc.
Qed.

Lemma checked_app (fs : FS) (hashes : Store) (l1 l2 : list string) :
  checked fs hashes (l1 ++ l2) = checked fs (checked fs hashes l1) l2.
Proof. apply fold_left_app. Qed.

(** What the inner loop of [watchTimed] returns and does: the store is the one
    left by the checks, every file is read once and in order, nothing is sent. *)
Lemma watchTimed_range_run (hashes : Store) (change : bool) (files : list string)
  (fs : FS) :
  let r := watchTimed_range hashes change files fs in
  r.1.2 = checked fs hashes files /\ reads r.2 = files /\ sent r.2 = [].
Proof.
  revert hashes change. induction files as [|file files IH]; intros hashes change.
  - by cbn.
  - cbn [watchTimed_range checked fold_left]. run.
    pose proof (fileChanged_trace hashes file fs) as (Hr & Hs & _).
    destruct (fileChanged hashes file fs) as [[[] h] t]; run; cbn [fst snd] in *.
    + destruct (IH h true) as (IH1 & IH2 & IH3).
      destruct (watchTimed_range h true files fs) as [[c1 h1] t1].
      cbn [fst snd] in *. unfold reads, sent in *.
      rewrite !omap_app, Hr, Hs. cbn. by rewrite IH1, IH2, IH3.
    + destruct (IH h change) as (IH1 & IH2 & IH3).
      destruct (watchTimed_range h change files fs) as [[c1 h1] t1].
      cbn [fst snd] in *. unfold reads, sent in *.
      rewrite !omap_app, Hr, Hs. cbn. by rewrite IH1, IH2, IH3.
Qed.

(** The flag the inner loop returns: it was set on entry, or some check of the
    sweep returned [true]. *)
Lemma watchTimed_range_change (hashes : Store) (change : bool) (files : list string)
  (fs : FS) :
  (watchTimed_range hashes change files fs).1.1 = true
  <-> change = true
      \/ exists l1 file l2,
           files = l1 ++ file :: l2
           /\ (fileChanged (checked fs hashes l1) file fs).1.1 = true.
Proof.
  revert hashes change. induction files as [|file files IH]; intros hashes change.
  - cbn. split; [by left|]. intros [H|(l1 & f & l2 & H & _)]; [done|].
    by destruct l1.
  - cbn [watchTimed_range]. run.
    destruct (fileChanged hashes file fs) as [[c h] t] eqn:E.
    assert (watchTimed_range_step :
      forall c', (watchTimed_range h c' files fs).1.1 = true
        <-> c' = true
            \/ exists l1 f l2, files = l1 ++ f :: l2
                 /\ (fileChanged (checked fs hashes (file :: l1)) f fs).1.1 = true).
    { intros c'. rewrite IH. cbn [checked fold_left]. by rewrite E. }
    destruct c; run.
    + destruct (watchTimed_range h true files fs) as [[c1 h1] t1] eqn:E1.
      cbn [fst snd]. split.
      * intros _. right. exists [], file, files. cbn. by rewrite E.
      * intros _. specialize (watchTimed_range_step true). rewrite E1 in watchTimed_range_step.
        apply watchTimed_range_step. by left.
    + destruct (watchTimed_range h change files fs) as [[c1 h1] t1] eqn:E1.
      cbn [fst snd]. specialize (watchTimed_range_step change).
      rewrite E1 in watchTimed_range_step. cbn [fst snd] in watchTimed_range_step.
      rewrite watchTimed_range_step. split.
      * intros [H|(l1 & f & l2 & -> & H)]; [by left|].
        right. by exists (file :: l1), f, l2.
      * intros [H|(l1 & f & l2 & Hl & H)]; [by left|].
        destruct l1 as [|f1 l1].
        -- cbn in Hl, H. injection Hl as <- <-. rewrite E in H. done.
        -- cbn [app] in Hl. injection Hl as <- ->. right. by exists l1, f, l2.
Qed.

(** One tick: the store is the one left by the checks of all the files, and
    [true] is sent once if the sweep set the flag, nothing otherwise. *)
Lemma watchTimed_tick_run (files : list string) (hashes : Store) (fs : FS) :
  let r := watchTimed_tick files hashes fs in
  r.1 = checked fs hashes files
  /\ reads r.2 = files
  /\ sent r.2
     = if (watchTimed_range hashes false files fs).1.1 then [true] else [].
Proof.
  unfold watchTimed_tick. run.
  pose proof (watchTimed_range_run hashes false files fs) as (H1 & H2 & H3).
  destruct (watchTimed_range hashes false files fs) as [[[] h] t]; run;
    cbn [fst snd] in *; unfold reads, sent in *; cbn;
    rewrite !omap_app, H2, H3; cbn; by rewrite app_nil_r.
Qed.

(** What the body run for a matched file does, in order: the log line, the
    registration if the event has the [Create] bit, the check, then the log
    line of the outcome, with a send after it on a change. *)
Lemma watchAuto_matched_run (event : Event) (name : string) (hashes : Store)
  (file : string) (fs : FS) :
  watchAuto_matched event name hashes file fs
  = let r := fileChanged hashes file fs in
    (r.1.2,
     [Printf "received fs event for %s" [name]]
       ++ (if Z.land (Op event) Create =? Create then [Add file] else [])
       ++ r.2
       ++ (if r.1.1
           then [Printf "detected change on %s" [name]; Send true]
           else [Printf "no change on %s" [name]])).
Proof.
  unfold watchAuto_matched. run.
  destruct (fileChanged hashes file fs) as [[[] h] t];
    destruct (Z.land (Op event) Create =? Create); run; cbn [fst snd]; done.
Qed.

(** The loop over the files stops at the first one matched with the event and
    does nothing when there is none. *)
Lemma watchAuto_range_run (event : Event) (hashes : Store) (files : list string)
  (fs : FS) :
  watchAuto_range event hashes files fs
  = match matched event files with
    | Some file =>
        watchAuto_matched event (path.Base (Name event)) hashes file fs
    | None => (hashes, [])
    end.
Proof.
  unfold matched. induction files as [|file files IH]; [done|].
  cbn [watchAuto_range List.find].
  by destruct (String.eqb _ _).
Qed.

(** A file that cannot be read leaves the sweep as it would be without it. *)
Lemma watchTimed_range_error (hashes : Store) (change : bool) (file : string)
  (files : list string) (fs : FS) (err : string) :
  fs file = inr err ->
  (watchTimed_range hashes change (file :: files) fs).1
  = (watchTimed_range hashes change files fs).1.
Proof.
  intros E. cbn [watchTimed_range]. run.
  rewrite (fileChanged_error _ _ _ _ E).
  by destruct (watchTimed_range hashes change files fs).
Qed.

(** * The properties of the specification *)

(** ** The change detector *)

(** C2. When the read of the file fails, [fileChanged] returns [false] and
    the store it leaves is the store it was given, entry of the file's base
    name included.  Nothing is sent for that check: the event loop that
    checked the file on an event sends nothing and keeps the store, and a
    timed sweep leaves the same store and sends the same as the sweep without
    that file would.  A later check starts from the store as it was, so a
    later successful read is compared with the last digest stored. *)
Theorem fileChanged_read_failure (hashes : Store) (file : string) (fs : FS)
  (err : string) :
  fs file = inr err ->
  (fileChanged hashes file fs).1 = (false, hashes)
  /\ sent (fileChanged hashes file fs).2 = []
  /\ (forall event files,
        matched event files = Some file ->
        let r := watchAuto_range event hashes files fs in
        r.1 = hashes /\ sent r.2 = [])
  /\ (forall l1 l2,
        let r := watchTimed_tick (l1 ++ file :: l2) hashes fs in
        let r' := watchTimed_tick (l1 ++ l2) hashes fs in
        r.1 = r'.1 /\ sent r.2 = sent r'.2)
  /\ (forall fs',
        fileChanged (fileChanged hashes file fs).1.2 file fs'
        = fileChanged hashes file fs').
Proof.
  intros E. split_and!.
  - by rewrite (fileChanged_error _ _ _ _ E).
  - by rewrite (fileChanged_error _ _ _ _ E).
  - intros event files Hm r. subst r.
    rewrite watchAuto_range_run, Hm, watchAuto_matched_run.
    rewrite (fileChanged_error _ _ _ _ E). cbn [fst snd].
    split; [done|]. by destruct (Z.land (Op event) Create =? Create).
  - intros l1 l2 r r'. subst r r'.
    assert (Hsame : forall l,
      (watchTimed_range hashes false (l1 ++ file :: l) fs).1
      = (watchTimed_range hashes false (l1 ++ l) fs).1).
    { intros l. rewrite !watchTimed_range_app. cbn zeta. cbn [fst snd].
      apply watchTimed_range_error with (err := err). exact E. }
    destruct (watchTimed_tick_run (l1 ++ file :: l2) hashes fs) as (H1 & _ & H2).
    destruct (watchTimed_tick_run (l1 ++ l2) hashes fs) as (H1' & _ & H2').
    destruct (watchTimed_range_run hashes false (l1 ++ file :: l2) fs) as (H3 & _).
    destruct (watchTimed_range_run hashes false (l1 ++ l2) fs) as (H3' & _).
    rewrite H1, H1', H2, H2', <- H3, <- H3', Hsame. done.
  - intros fs'. by rewrite (fileChanged_error _ _ _ _ E).
Qed.

Lemma fileChanged_read_failure_witness :
  let hashes : Store := {[ "a.txt"%string := sha256.Sum256 (bytes "hello") ]} in
  disk [] "/etc/a.txt"
  = inr "open /etc/a.txt: no such file or directory"%string
  /\ (fileChanged hashes "/etc/a.txt" (disk [])).1 = (false, hashes).
Proof.
  split; [reflexivity|].
  apply (fileChanged_read_failure _ "/etc/a.txt" (disk [])
           "open /etc/a.txt: no such file or directory").
  reflexivity.
Defined.

(** C4. A file whose entry in the store is the sha256 digest of its bytes,
    checked twice while its bytes stay the same: both checks return [false]
    and the store, the entry of the file's base name in particular, is after
    each of them what it was before. *)
Theorem fileChanged_unchanged_file (hashes : Store) (file : string)
  (fs fs' : FS) (data : list byte) :
  hashes !! path.Base file = Some (sha256.Sum256 data) ->
  fs file = inl data ->
  fs' file = inl data ->
  let r1 := fileChanged hashes file fs in
  let r2 := fileChanged r1.1.2 file fs' in
  r1.1.1 = false /\ r2.1.1 = false
  /\ r1.1.2 = hashes /\ r2.1.2 = hashes
  /\ r1.1.2 !! path.Base file = Some (sha256.Sum256 data)
  /\ r2.1.2 !! path.Base file = Some (sha256.Sum256 data).
Proof.
  intros Hh E E' r1 r2. subst r1 r2.
  assert (Hsame : forall f : FS, f file = inl data ->
            (fileChanged hashes file f).1 = (false, hashes)).
  { intros f Ef. rewrite (fileChanged_ok _ _ _ _ Ef), Hh. cbn [default id].
    by rewrite (proj2 (bytes_Equal_true _ _) eq_refl). }
  rewrite (Hsame fs E). cbn [fst snd]. rewrite (Hsame fs' E'). done.
Qed.

Lemma fileChanged_unchanged_file_witness :
  let hashes : Store := {[ "a.txt"%string := sha256.Sum256 (bytes "hello") ]} in
  let fs := disk [("/etc/a.txt", "hello")]%string in
  hashes !! path.Base "/etc/a.txt" = Some (sha256.Sum256 (bytes "hello"))
  /\ fs "/etc/a.txt"%string = inl (bytes "hello")
  /\ (fileChanged hashes "/etc/a.txt" fs).1.1 = false
  /\ (fileChanged (fileChanged hashes "/etc/a.txt" fs).1.2 "/etc/a.txt" fs).1.1
     = false.
Proof.
  cbv zeta.
  assert (H1 : ({[ "a.txt"%string := sha256.Sum256 (bytes "hello") ]} : Store)
               !! path.Base "/etc/a.txt" = Some (sha256.Sum256 (bytes "hello")))
    by (vm_compute; reflexivity).
  assert (H2 : disk [("/etc/a.txt", "hello")]%string "/etc/a.txt"%string
               = inl (bytes "hello")) by reflexivity.
  split; [exact H1|]. split; [exact H2|].
  pose proof (fileChanged_unchanged_file _ _ _ _ _ H1 H2 H2) as (Ha & Hb & _).
  split; [exact Ha | exact Hb].
Defined.

(** C10. [fileChanged hashes file] touches no entry of the store but the one
    of [path.Base file]: the entry of every other key is after the call what
    it was before, whatever the call returns and whether or not the file
    could be read. *)
Theorem fileChanged_frame (hashes : Store) (file : string) (fs : FS)
  (name : string) :
  name <> path.Base file ->
  (fileChanged hashes file fs).1.2 !! name = hashes !! name.
Proof.
  intros Hne.
  destruct (fileChanged_cases hashes file fs) as [H|(data & _ & _ & H)];
    rewrite H; cbn [snd]; [done|].
  by rewrite lookup_insert_ne.
Qed.

Lemma fileChanged_frame_witness :
  let hashes : Store := {[ "b.txt"%string := sha256.Sum256 (bytes "world") ]} in
  let fs := disk [("/etc/a.txt", "hello")]%string in
  "b.txt"%string <> path.Base "/etc/a.txt"
  /\ (fileChanged hashes "/etc/a.txt" fs).1.2 !! "b.txt"%string
     = hashes !! "b.txt"%string.
Proof.
  cbv zeta.
  assert (H : "b.txt"%string <> path.Base "/etc/a.txt")
    by (vm_compute; discriminate).
  split; [exact H|]. exact (fileChanged_frame _ _ _ _ H).
Defined.

(** C3, as it is written, fails: a change of the bytes that keeps the digest
    is not seen, and byte strings of equal digest exist ([Sum256_collision]).
    The statement below is the claim with "the bytes change" read on the
    bytes themselves; it cannot hold for all files. *)
Lemma fileChanged_change_of_equal_digest :
  ~ (forall (hashes : Store) (file : string) (fs fs' : FS) (old new : list byte),
       hashes !! path.Base file = Some (sha256.Sum256 old) ->
       new <> old ->
       fs file = inl new ->
       fs' file = inl new ->
       let r1 := fileChanged hashes file fs in
       let r2 := fileChanged r1.1.2 file fs' in
       r1.1 = (true, <[path.Base file := sha256.Sum256 new]> hashes)
       /\ r2.1 = (false, r1.1.2)).
Proof.
  intros Hclaim. destruct Sum256_collision as (old & new & Hne & Hd).
  destruct (Hclaim {[ path.Base "/etc/a.txt" := sha256.Sum256 old ]}
              "/etc/a.txt"%string (fun _ => inl new) (fun _ => inl new) old new)
    as [H _]; [apply lookup_singleton_eq | congruence | done | done |].
  rewrite (fileChanged_ok _ _ _ new eq_refl) in H.
  rewrite lookup_singleton_eq in H. cbn [default id] in H.
  rewrite (proj2 (bytes_Equal_true _ _) Hd) in H. discriminate H.
Qed.

(** C3, amended. A file whose entry in the store is the digest of its
    previous bytes and whose bytes change to bytes of another digest: the
    first check after the change returns [true] and stores the new digest
    under the file's base name, and the check that follows it, the bytes
    being the same, returns [false] and keeps that store.  The change is
    reported once. *)
Theorem fileChanged_reports_change_once (hashes : Store) (file : string)
  (fs fs' : FS) (old new : list byte) :
  hashes !! path.Base file = Some (sha256.Sum256 old) ->
  sha256.Sum256 new <> sha256.Sum256 old ->
  fs file = inl new ->
  fs' file = inl new ->
  let r1 := fileChanged hashes file fs in
  let r2 := fileChanged r1.1.2 file fs' in
  r1.1 = (true, <[path.Base file := sha256.Sum256 new]> hashes)
  /\ r2.1 = (false, r1.1.2).
Proof.
  intros Hh Hd E E' r1 r2. subst r1 r2.
  assert (H1 : (fileChanged hashes file fs).1
               = (true, <[path.Base file := sha256.Sum256 new]> hashes)).
  { rewrite (fileChanged_ok _ _ _ _ E), Hh. cbn [default id].
    destruct (bytes_Equal _ _) eqn:Eq; [|done].
    apply bytes_Equal_true in Eq. congruence. }
  split; [exact H1|]. rewrite H1. cbn [snd].
  rewrite (fileChanged_ok _ _ _ _ E'), lookup_insert_eq. cbn [default id].
  by rewrite (proj2 (bytes_Equal_true _ _) eq_refl).
Qed.

Lemma fileChanged_reports_change_once_witness :
  let hashes : Store := {[ "a.txt"%string := sha256.Sum256 (bytes "hello") ]} in
  let fs := disk [("/etc/a.txt", "world")]%string in
  hashes !! path.Base "/etc/a.txt" = Some (sha256.Sum256 (bytes "hello"))
  /\ sha256.Sum256 (bytes "world") <> sha256.Sum256 (bytes "hello")
  /\ fs "/etc/a.txt"%string = inl (bytes "world")
  /\ (fileChanged hashes "/etc/a.txt" fs).1.1 = true
  /\ (fileChanged (fileChanged hashes "/etc/a.txt" fs).1.2 "/etc/a.txt" fs).1.1
     = false.
Proof.
  cbv zeta.
  assert (H1 : ({[ "a.txt"%string := sha256.Sum256 (bytes "hello") ]} : Store)
               !! path.Base "/etc/a.txt" = Some (sha256.Sum256 (bytes "hello")))
    by (vm_compute; reflexivity).
  assert (H2 : sha256.Sum256 (bytes "world") <> sha256.Sum256 (bytes "hello"))
    by (vm_compute; discriminate).
  assert (H3 : disk [("/etc/a.txt", "world")]%string "/etc/a.txt"%string
               = inl (bytes "world")) by reflexivity.
  split; [exact H1|]. split; [exact H2|]. split; [exact H3|].
  pose proof (fileChanged_reports_change_once _ _ _ _ _ _ H1 H2 H3 H3) as [Ha Hb].
  cbv zeta in Ha, Hb. split; [by rewrite Ha | by rewrite Hb].
Defined.

(** ** Timed mode *)

(** C5. A sweep of the timed watcher over the watched files sends at most
    once, and it sends exactly when the change detector returned [true] for
    some file of the sweep, each file being checked on the store the checks
    before it left.  Two files or more that changed in the same interval
    therefore give one send. *)
Theorem watchTimed_tick_coalesces (files : list string) (hashes : Store) (fs : FS) :
  let t := (watchTimed_tick files hashes fs).2 in
  (sent t = [true] \/ sent t = [])
  /\ (sent t = [true]
      <-> exists l1 file l2,
            files = l1 ++ file :: l2
            /\ (fileChanged (checked fs hashes l1) file fs).1.1 = true)
  /\ (forall l1 file1 l2 file2 l3,
        files = l1 ++ file1 :: l2 ++ file2 :: l3 ->
        (fileChanged (checked fs hashes l1) file1 fs).1.1 = true ->
        (fileChanged (checked fs hashes (l1 ++ file1 :: l2)) file2 fs).1.1 = true ->
        length (sent t) = 1%nat).
Proof.
  intros t. subst t.
  destruct (watchTimed_tick_run files hashes fs) as (_ & _ & Hs).
  pose proof (watchTimed_range_change hashes false files fs) as Hc.
  assert (Hiff : sent (watchTimed_tick files hashes fs).2 = [true]
                 <-> exists l1 file l2,
                       files = l1 ++ file :: l2
                       /\ (fileChanged (checked fs hashes l1) file fs).1.1 = true).
  { rewrite Hs. destruct (watchTimed_range hashes false files fs).1.1.
    - split; [|done]. intros _. destruct (proj1 Hc eq_refl) as [H|H]; done.
    - split; [done|]. intros H. by apply (fun x => proj2 Hc (or_intror x)) in H. }
  split_and!.
  - rewrite Hs. destruct (watchTimed_range hashes false files fs).1.1; auto.
  - exact Hiff.
  - intros l1 file1 l2 file2 l3 Hf H1 _.
    rewrite (proj2 Hiff); [done|]. by exists l1, file1, (l2 ++ file2 :: l3).
Qed.

(** ** Event-driven mode *)

(** C6. For one event, the event loop processes at most one watched file: the
    first of the list whose base name is the base name of the event's target,
    also when later files have that base name too.  The change detector runs
    at most once (on that file, on the store as it was) and at most one send
    is made (one if the detector returned [true], none otherwise); with no
    such file nothing is done. *)
Theorem watchAuto_range_first_match (event : Event) (hashes : Store)
  (files : list string) (fs : FS) :
  let r := watchAuto_range event hashes files fs in
  match List.find (fun file => String.eqb (path.Base (Name event)) (path.Base file))
          files with
  | Some file =>
      reads r.2 = [file]
      /\ r.1 = (fileChanged hashes file fs).1.2
      /\ sent r.2 = (if (fileChanged hashes file fs).1.1 then [true] else [])
  | None => r = (hashes, [])
  end
  /\ (length (reads r.2) <= 1)%nat
  /\ (length (sent r.2) <= 1)%nat.
Proof.
  intros r. subst r. rewrite watchAuto_range_run. unfold matched.
  destruct (List.find _ files) as [file|]; [|cbn; auto with lia].
  rewrite watchAuto_matched_run. cbn zeta. cbn [fst snd].
  pose proof (fileChanged_trace hashes file fs) as (Hr & Hs & _).
  assert (Hreads : reads
    ([Printf "received fs event for %s" [path.Base (Name event)]]
       ++ (if Z.land (Op event) Create =? Create then [Add file] else [])
       ++ (fileChanged hashes file fs).2
       ++ (if (fileChanged hashes file fs).1.1
           then [Printf "detected change on %s" [path.Base (Name event)]; Send true]
           else [Printf "no change on %s" [path.Base (Name event)]])) = [file]).
  { rewrite !reads_app, Hr.
    by destruct (Z.land (Op event) Create =? Create),
         ((fileChanged hashes file fs).1.1). }
  assert (Hsent : sent
    ([Printf "received fs event for %s" [path.Base (Name event)]]
       ++ (if Z.land (Op event) Create =? Create then [Add file] else [])
       ++ (fileChanged hashes file fs).2
       ++ (if (fileChanged hashes file fs).1.1
           then [Printf "detected change on %s" [path.Base (Name event)]; Send true]
           else [Printf "no change on %s" [path.Base (Name event)]]))
    = if (fileChanged hashes file fs).1.1 then [true] else []).
  { rewrite !sent_app, Hs.
    by destruct (Z.land (Op event) Create =? Create),
         ((fileChanged hashes file fs).1.1). }
  rewrite Hreads, Hsent. split_and!; [done..| |]; [cbn; lia|].
  destruct ((fileChanged hashes file fs).1.1); cbn; lia.
Qed.



(** ** Initial population *)

Lemma hashFiles_range_run (hashes : Store) (files : list string) (fs : FS) :
  let r := hashFiles_range hashes files fs in
  r.1 = populate fs hashes files
  /\ reads r.2 = files /\ sent r.2 = [] /\ adds r.2 = [].
Proof.
  revert hashes. induction files as [|file files IH]; intros hashes; [done|].
  cbn [hashFiles_range populate fold_left]. run.
  destruct (fs file) as [data|err]; run.
  - destruct (IH (<[path.Base file := sha256.Sum256 data]> hashes))
      as (IH1 & IH2 & IH3 & IH4).
    destruct (hashFiles_range _ files fs) as [h t]. cbn [fst snd] in *.
    unfold reads, sent, adds in *. cbn. by rewrite IH1, IH2, IH3, IH4.
  - destruct (IH hashes) as (IH1 & IH2 & IH3 & IH4).
    destruct (hashFiles_range _ files fs) as [h t]. cbn [fst snd] in *.
    unfold reads, sent, adds in *. cbn. by rewrite IH1, IH2, IH3, IH4.
Qed.

Lemma populate_cons (fs : FS) (hashes : Store) (file : string)
  (files : list string) :
  populate fs hashes (file :: files)
  = populate fs
      match fs file with
      | inl data => <[path.Base file := sha256.Sum256 data]> hashes
      | inr _ => hashes
      end files.
Proof. reflexivity. Qed.

(** Files that cannot be read, or have another base name, leave an entry as
    it is. *)
Lemma populate_frame (fs : FS) (hashes : Store) (files : list string)
  (name : string) :
  (forall file, file ∈ files -> path.Base file = name -> exists err, fs file = inr err) ->
  populate fs hashes files !! name = hashes !! name.
Proof.
  revert hashes. induction files as [|file files IH]; intros hashes Hf; [done|].
  rewrite populate_cons, IH by (intros f Hin; apply Hf; by right).
  destruct (fs file) as [data|err] eqn:E; [|done].
  apply lookup_insert_ne. intros Hb.
  destruct (Hf file) as [err Herr]; [by left | done | congruence].
Qed.

Lemma populate_app (fs : FS) (hashes : Store) (l1 l2 : list string) :
  populate fs hashes (l1 ++ l2) = populate fs (populate fs hashes l1) l2.
Proof. apply fold_left_app. Qed.

(** C8, as it is written, fails when two watched files have the same base
    name: the entry holds the digest of the later one.  Here [/a/cert.pem]
    can be read, and the entry of its base name is not the digest of its
    contents. *)
Lemma hashFiles_shared_base_name :
  let files := ["/a/cert.pem"; "/b/cert.pem"]%string in
  let fs := disk [("/a/cert.pem", "hello"); ("/b/cert.pem", "world")]%string in
  ~ (forall file data,
       file ∈ files -> fs file = inl data ->
       (hashFiles files fs).1 !! path.Base file = Some (sha256.Sum256 data)).
Proof.
  intros files fs Hclaim.
  specialize (Hclaim "/a/cert.pem"%string (bytes "hello")).
  assert (H : (hashFiles files fs).1 !! path.Base "/a/cert.pem"
              = Some (sha256.Sum256 (bytes "hello"))).
  { apply Hclaim; [by left | reflexivity]. }
  vm_compute in H. discriminate H.
Qed.

(** C8, amended. [hashFiles files] reads every file of the list, in order, a
    failed read not stopping it, and returns a store in which a file that can
    be read, and is not followed in the list by a readable file of the same
    base name, has under its base name the sha256 digest of its contents; a
    base name is absent from the store when none of the listed files with
    that base name can be read.  With base names that are all different,
    that is: each readable file has its entry and each unreadable one has
    none. *)
Theorem hashFiles_populates (files : list string) (fs : FS) :
  let r := hashFiles files fs in
  reads r.2 = files
  /\ (forall l1 file l2 data,
        files = l1 ++ file :: l2 ->
        fs file = inl data ->
        (forall later, later ∈ l2 -> path.Base later = path.Base file ->
                       exists err, fs later = inr err) ->
        r.1 !! path.Base file = Some (sha256.Sum256 data))
  /\ (forall name,
        (forall file, file ∈ files -> path.Base file = name ->
                      exists err, fs file = inr err) ->
        r.1 !! name = None)
  /\ (NoDup (path.Base <$> files) ->
      forall file, file ∈ files ->
        r.1 !! path.Base file
        = match fs file with
          | inl data => Some (sha256.Sum256 data)
          | inr _ => None
          end).
Proof.
  intros r. subst r. unfold hashFiles.
  destruct (hashFiles_range_run ∅ files fs) as (Hs & Hr & _).
  rewrite Hs.
  assert (Hlast : forall l1 file l2 data,
    files = l1 ++ file :: l2 ->
    fs file = inl data ->
    (forall later, later ∈ l2 -> path.Base later = path.Base file ->
                   exists err, fs later = inr err) ->
    populate fs ∅ files !! path.Base file = Some (sha256.Sum256 data)).
  { intros l1 file l2 data -> E Hl2.
    rewrite populate_app, populate_cons, (populate_frame _ _ _ _ Hl2), E.
    apply lookup_insert_eq. }
  assert (Hnone : forall name,
    (forall file, file ∈ files -> path.Base file = name ->
                  exists err, fs file = inr err) ->
    populate fs ∅ files !! name = None).
  { intros name Hf. by rewrite (populate_frame _ _ _ _ Hf). }
  split_and!; [exact Hr | exact Hlast | exact Hnone |].
  intros Hnd file Hin.
  apply list_elem_of_split in Hin as (l1 & l2 & ->).
  rewrite fmap_app, fmap_cons in Hnd.
  apply NoDup_app in Hnd as (_ & Hl1 & Hnd). apply NoDup_cons in Hnd as [Hl2 _].
  destruct (fs file) as [data|err] eqn:E.
  - apply (Hlast l1 file l2 data eq_refl E).
    intros later Hin Hb. exfalso. apply Hl2. rewrite <- Hb.
    by apply list_elem_of_fmap_2.
  - apply Hnone. intros f Hin Hb.
    apply elem_of_app in Hin as [Hin|Hin].
    + exfalso. apply (Hl1 (path.Base f)); [by apply list_elem_of_fmap_2|].
      rewrite Hb. by left.
    + apply elem_of_cons in Hin as [->|Hin]; [by exists err|].
      exfalso. apply Hl2. rewrite <- Hb. by apply list_elem_of_fmap_2.
Qed.

(** ** The store during a run *)

Lemma evolves_trans (files : list string) (h1 h2 h3 : Store) :
  evolves files h1 h2 -> evolves files h2 h3 -> evolves files h1 h3.
Proof. intros H12 H23. induction H23; [done | by constructor]. Qed.

Lemma evolves_keysWatched (files : list string) (h h' : Store) :
  evolves files h h' -> keysWatched files h -> keysWatched files h'.
Proof.
  intros Hev Hk. induction Hev as [|h' file fs _ IH Hin]; [done|].
  destruct (fileChanged_cases h' file fs) as [H|(data & _ & _ & H)];
    rewrite H; cbn [snd]; [done|].
  intros name. destruct (decide (name = path.Base file)) as [->|Hne].
  - intros _. by exists file.
  - rewrite lookup_insert_ne by done. apply IH.
Qed.

Lemma evolves_keeps (files : list string) (h h' : Store) :
  evolves files h h' -> keeps h h'.
Proof.
  intros Hev. induction Hev as [|h' file fs _ IH Hin]; [by intros name|].
  intros name Hn. apply IH in Hn.
  destruct (fileChanged_cases h' file fs) as [H|(data & _ & _ & H)];
    rewrite H; cbn [snd]; [done|].
  destruct (decide (name = path.Base file)) as [->|Hne].
  - by rewrite lookup_insert_eq.
  - by rewrite lookup_insert_ne.
Qed.

Lemma checked_evolves (files : list string) (fs : FS) (h : Store) (l : list string) :
  (forall file, file ∈ l -> file ∈ files) -> evolves files h (checked fs h l).
Proof.
  induction l as [|file l IH] using rev_ind; intros Hl; [constructor|].
  rewrite checked_app. cbn [checked fold_left]. constructor.
  - apply IH. intros f Hf. apply Hl, elem_of_app. by left.
  - apply Hl, elem_of_app. right. by left.
Qed.

Lemma matched_elem_of (event : Event) (files : list string) (file : string) :
  matched event files = Some file -> file ∈ files.
Proof. intros H. apply find_some in H as [H _]. by apply list_elem_of_In. Qed.

Lemma watchTimed_tick_evolves (files : list string) (h : Store) (fs : FS) :
  evolves files h (watchTimed_tick files h fs).1.
Proof.
  destruct (watchTimed_tick_run files h fs) as (-> & _).
  by apply checked_evolves.
Qed.

Lemma watchAuto_select_evolves (files : list string) (h : Store) (r : received)
  (fs : FS) :
  evolves files h (watchAuto_select files h r fs).1.
Proof.
  destruct r as [event|err]; [|constructor].
  cbn [watchAuto_select]. rewrite watchAuto_range_run.
  destruct (matched event files) as [file|] eqn:Hm; [|constructor].
  rewrite watchAuto_matched_run. cbn zeta. cbn [fst].
  constructor; [constructor | by apply matched_elem_of in Hm].
Qed.

Lemma iterate_app {I : Type} (step : Store -> I -> M Store)
  (l1 l2 : list (FS * I)) (start : Store * list effect) :
  iterate step (l1 ++ l2) start = iterate step l2 (iterate step l1 start).
Proof. apply fold_left_app. Qed.

Lemma iterate_evolves {I : Type} (files : list string)
  (step : Store -> I -> M Store) (inputs : list (FS * I))
  (start : Store * list effect) :
  (forall h i fs, evolves files h (step h i fs).1) ->
  evolves files start.1 (iterate step inputs start).1.
Proof.
  intros Hstep. revert start.
  induction inputs as [|[fs i] inputs IH]; intros start; [constructor|].
  cbn [iterate fold_left]. fold (iterate step inputs).
  eapply evolves_trans; [|apply IH].
  cbn [fst snd]. pose proof (Hstep start.1 i fs) as H.
  by destruct (step start.1 i fs).
Qed.

Lemma hashFiles_keysWatched (files : list string) (fs : FS) :
  keysWatched files (hashFiles files fs).1.
Proof.
  intros name Hsome. unfold hashFiles in Hsome.
  destruct (hashFiles_range_run ∅ files fs) as (Hs & _). rewrite Hs in Hsome.
  destruct (decide (name ∈ path.Base <$> files)) as [Hin|Hno].
  - apply list_elem_of_fmap in Hin as (file & -> & Hin). by exists file.
  - rewrite populate_frame, lookup_empty in Hsome; [by destruct Hsome|].
    intros file Hin Hb. exfalso. apply Hno. rewrite <- Hb.
    by apply list_elem_of_fmap_2.
Qed.

(** C9. Through a run of the watcher, in either mode and after any number of
    ticks or of events and errors, every key of the hash store is the base
    name of a watched file and the store has one entry per key.  From one
    moment of the run to a later one the store changes by calls of the change
    detector on watched files and by nothing else, and no entry is ever
    deleted: a key the store has at one moment is a key of it ever after.  A
    call of the change detector either leaves the store as it is and returns
    [false], or returns [true] and puts the new digest under the base name of
    the file, creating or overwriting that one entry. *)
Theorem store_invariant (Dir : string -> string) (files : list string) :
  (forall duration fs0 ticks,
     let hashes := (watchTimed files duration fs0 ticks).1 in
     keysWatched files hashes /\ NoDup (map_to_list hashes).*1)
  /\ (forall newWatcher fs0 inputs hashes,
        (watchAuto Dir files newWatcher fs0 inputs).1 = Some hashes ->
        keysWatched files hashes /\ NoDup (map_to_list hashes).*1)
  /\ (forall duration fs0 ticks more,
        let before := (watchTimed files duration fs0 ticks).1 in
        let after := (watchTimed files duration fs0 (ticks ++ more)).1 in
        evolves files before after /\ keeps before after)
  /\ (forall newWatcher fs0 inputs more before after,
        (watchAuto Dir files newWatcher fs0 inputs).1 = Some before ->
        (watchAuto Dir files newWatcher fs0 (inputs ++ more)).1 = Some after ->
        evolves files before after /\ keeps before after)
  /\ (forall (hashes : Store) file fs,
        let r := fileChanged hashes file fs in
        r.1 = (false, hashes)
        \/ exists data,
             fs file = inl data
             /\ r.1 = (true, <[path.Base file := sha256.Sum256 data]> hashes)).
Proof.
  assert (Htick : forall h (i : unit) fs,
            evolves files h (watchTimed_tick files h fs).1)
    by (intros h _ fs; apply watchTimed_tick_evolves).
  pose proof (watchAuto_select_evolves files) as Hselect.
  assert (Hkeeps : forall h h', evolves files h h' ->
            evolves files h h' /\ keeps h h')
    by (intros h h' Hev; split; [done | by apply (evolves_keeps files)]).
  split_and!.
  - intros duration fs0 ticks hashes. subst hashes.
    split; [|apply NoDup_fst_map_to_list].
    unfold watchTimed. eapply evolves_keysWatched.
    + apply (iterate_evolves files _ _ _ Htick).
    + apply hashFiles_keysWatched.
  - intros newWatcher fs0 inputs hashes H.
    split; [|apply NoDup_fst_map_to_list].
    unfold watchAuto in H. pose proof (hashFiles_keysWatched files fs0) as Hk.
    destruct (hashFiles files fs0) as [h0 t0]. destruct newWatcher; [done|].
    cbn [panicOnError] in H.
    destruct (watchAuto_register Dir files fs0) as [[] t1].
    pose proof (iterate_evolves files _ inputs (h0, t0 ++ t1) Hselect) as Hev.
    destruct (iterate _ inputs _) as [h t]. injection H as <-.
    by apply (evolves_keysWatched files h0).
  - intros duration fs0 ticks more before after. subst before after.
    apply Hkeeps. unfold watchTimed.
    destruct (duration <=? 0); [constructor|].
    rewrite iterate_app. apply (iterate_evolves files _ _ _ Htick).
  - intros newWatcher fs0 inputs more before after H H'.
    apply Hkeeps. unfold watchAuto in H, H'.
    destruct (hashFiles files fs0) as [h0 t0]. destruct newWatcher; [done|].
    cbn [panicOnError] in H, H'.
    destruct (watchAuto_register Dir files fs0) as [[] t1].
    rewrite iterate_app in H'.
    pose proof (iterate_evolves files _ more
                  (iterate (watchAuto_select files) inputs (h0, t0 ++ t1))
                  Hselect) as Hev.
    destruct (iterate _ inputs _) as [h t]. injection H as <-.
    destruct (iterate _ more _) as [h' t']. injection H' as <-.
    exact Hev.
  - intros hashes file fs r. subst r.
    destruct (fileChanged_cases hashes file fs) as [H|(data & E & _ & H)];
      [by left | right; by exists data].
Qed.

(** ** The scenario of the specification *)

(** [a.txt] holds "hello" when the watcher starts.  It is rewritten to "world",
    checked again unchanged, deleted, then created again with "world". *)
Example scenario_timed :
  let hello := disk [("/etc/a.txt", "hello")]%string in
  let world := disk [("/etc/a.txt", "world")]%string in
  let run := watchTimed ["/etc/a.txt"%string] 1000000000 hello
               [(world, tt); (world, tt); (disk [], tt); (world, tt)] in
  sent run.2 = [true]
  /\ run.1 !! "a.txt"%string = Some (sha256.Sum256 (bytes "world")).
Proof. vm_compute. auto. Qed.

(** The same in event-driven mode, followed by one more edit: the file is
    registered again on the [Create] event and the later edit is detected. *)
Example scenario_auto :
  let hello := disk [("/etc/a.txt", "hello")]%string in
  let world := disk [("/etc/a.txt", "world")]%string in
  let again := disk [("/etc/a.txt", "again")]%string in
  let event op := FromEvents {| Name := "/etc/a.txt"; Op := op |} in
  let run := watchAuto (fun _ => "/etc"%string) ["/etc/a.txt"%string] None hello
               [(world, event Write); (world, event Chmod);
                (disk [], event Remove); (world, event Create);
                (again, event Write)] in
  sent run.2 = [true; true]
  /\ adds run.2 = ["/etc/a.txt"; "/etc"; "/etc/a.txt"]%string
  /\ (fun h => h !! "a.txt"%string) <$> run.1
     = Some (Some (sha256.Sum256 (bytes "again"))).
Proof. vm_compute. auto. Qed.

(** * Further properties of the code *)

(** ** [fileChanged] *)

(** What indexing the store gives in Go: the entry, or the zero array. *)
Lemma fileChanged_index (hashes : Store) (file : string) (fs : FS)
  (data : list byte) :
  fs file = inl data ->
  default zeroDigest ((fileChanged hashes file fs).1.2 !! path.Base file)
  = sha256.Sum256 data.
Proof.
  intros E. rewrite (fileChanged_ok _ _ _ _ E).
  destruct (bytes_Equal _ _) eqn:Eq; cbn [fst snd].
  - by apply bytes_Equal_true in Eq.
  - by rewrite lookup_insert_eq.
Qed.

Lemma fileChanged_lookup_ne (hashes : Store) (file : string) (fs : FS)
  (name : string) :
  name <> path.Base file ->
  (fileChanged hashes file fs).1.2 !! name = hashes !! name.
Proof.
  intros Hne.
  destruct (fileChanged_cases hashes file fs) as [H|(data & _ & _ & H)];
    rewrite H; cbn [snd]; [done | by rewrite lookup_insert_ne].
Qed.

(** When the store already gives the digest of the contents, or the file
    cannot be read, the check returns [false] and keeps the store. *)
Lemma fileChanged_settled (hashes : Store) (file : string) (fs : FS) :
  (forall data, fs file = inl data ->
     default zeroDigest (hashes !! path.Base file) = sha256.Sum256 data) ->
  (fileChanged hashes file fs).1 = (false, hashes).
Proof.
  intros Hs. destruct (fs file) as [data|err] eqn:E.
  - rewrite (fileChanged_ok _ _ _ _ E), (Hs data eq_refl).
    by rewrite (proj2 (bytes_Equal_true _ _) eq_refl).
  - by rewrite (fileChanged_error _ _ _ _ E).
Qed.

(** X1. [fileChanged] returns [true] exactly when it changed the store: a
    [false] result means the map is as it was, a [true] result means it is
    not. *)
Theorem fileChanged_true_iff_written (hashes : Store) (file : string) (fs : FS) :
  (fileChanged hashes file fs).1.1 = true
  <-> (fileChanged hashes file fs).1.2 <> hashes.
Proof.
  destruct (fileChanged_cases hashes file fs) as [H|(data & _ & Hd & H)];
    rewrite H; cbn [fst snd].
  - split; [done|]. intros Hne. by destruct Hne.
  - split; [|done]. intros _ Heq. apply Hd.
    apply (f_equal (fun m : Store => m !! path.Base file)) in Heq.
    rewrite lookup_insert_eq in Heq. by rewrite <- Heq.
Qed.

(** X2. Checking a file twice on the same file system: whatever the store
    and whatever the first check did, the second check returns [false] and
    leaves the store the first one left. *)
Theorem fileChanged_idempotent (hashes : Store) (file : string) (fs : FS) :
  let r1 := fileChanged hashes file fs in
  (fileChanged r1.1.2 file fs).1 = (false, r1.1.2).
Proof.
  intros r1. subst r1. apply fileChanged_settled.
  intros data E. by apply fileChanged_index.
Qed.

(** X3. After a check that could read the file, indexing the store at the
    file's base name (the entry, or the zero array for a missing key) gives
    the sha256 digest of the bytes read, whatever the store held before. *)
Theorem fileChanged_tracks_contents (hashes : Store) (file : string) (fs : FS)
  (data : list byte) :
  fs file = inl data ->
  default zeroDigest ((fileChanged hashes file fs).1.2 !! path.Base file)
  = sha256.Sum256 data
  /\ ((fileChanged hashes file fs).1.1 = true ->
      (fileChanged hashes file fs).1.2 !! path.Base file
      = Some (sha256.Sum256 data)).
Proof.
  intros E. split; [by apply fileChanged_index|].
  rewrite (fileChanged_ok _ _ _ _ E).
  destruct (bytes_Equal _ _); cbn [fst snd]; [done|].
  intros _. apply lookup_insert_eq.
Qed.

Lemma fileChanged_tracks_contents_witness :
  let hashes : Store := {[ "a.txt"%string := sha256.Sum256 (bytes "hello") ]} in
  let fs := disk [("/etc/a.txt", "world")]%string in
  fs "/etc/a.txt"%string = inl (bytes "world")
  /\ default zeroDigest
       ((fileChanged hashes "/etc/a.txt" fs).1.2 !! path.Base "/etc/a.txt")
     = sha256.Sum256 (bytes "world").
Proof.
  cbv zeta.
  assert (H : disk [("/etc/a.txt", "world")]%string "/etc/a.txt"%string
              = inl (bytes "world")) by reflexivity.
  split; [exact H|]. exact (proj1 (fileChanged_tracks_contents _ _ _ _ H)).
Defined.

(** ** [hashFiles] *)

Lemma populate_is_Some (fs : FS) (hashes : Store) (files : list string)
  (name : string) :
  is_Some (populate fs hashes files !! name)
  <-> is_Some (hashes !! name)
      \/ exists file data,
           file ∈ files /\ path.Base file = name /\ fs file = inl data.
Proof.
  revert hashes. induction files as [|file files IH]; intros hashes.
  - cbn. split; [by left|]. intros [H|(f & d & Hin & _)]; [done|].
    by apply elem_of_nil in Hin.
  - rewrite populate_cons, IH. split.
    + intros [H|(f & d & Hin & Hb & E)].
      * destruct (fs file) as [data|err] eqn:E; [|by left].
        destruct (decide (name = path.Base file)) as [->|Hne].
        -- right. exists file, data. split_and!; [by left | done | done].
        -- rewrite lookup_insert_ne in H by done. by left.
      * right. exists f, d. split_and!; [by right | done | done].
    + intros [H|(f & d & Hin & Hb & E)].
      * left. destruct (fs file) as [data|err]; [|done].
        destruct (decide (path.Base file = name)) as [<-|Hne].
        -- by rewrite lookup_insert_eq.
        -- by rewrite lookup_insert_ne.
      * apply elem_of_cons in Hin as [->|Hin].
        -- left. rewrite E, <- Hb. by rewrite lookup_insert_eq.
        -- right. by exists f, d.
Qed.

Lemma populate_permutation (fs : FS) (hashes : Store) (l l' : list string) :
  NoDup (path.Base <$> l) -> l ≡ₚ l' ->
  populate fs hashes l = populate fs hashes l'.
Proof.
  intros Hnd Hp. revert hashes Hnd.
  induction Hp as [|x l l' Hp IH|x y l|l l' l'' Hp IH Hp' IH']; intros hashes Hnd.
  - done.
  - rewrite !populate_cons. apply IH.
    rewrite fmap_cons in Hnd. by apply NoDup_cons in Hnd as [_ Hnd].
  - rewrite !populate_cons.
    rewrite !fmap_cons in Hnd. apply NoDup_cons in Hnd as [Hne _].
    assert (path.Base y <> path.Base x) as Hxy
      by (intros Heq; apply Hne; rewrite Heq; by left).
    destruct (fs x), (fs y); try done.
    by rewrite insert_insert_ne.
  - rewrite IH by done. apply IH'. by rewrite <- Hp.
Qed.

(** X4. The keys of the store [hashFiles] returns are exactly the base names
    of the listed files that could be read; building it sends nothing on
    [notify] and registers nothing with the watcher.  An empty list, or a
    list of unreadable files, gives the empty map. *)
Theorem hashFiles_keys (files : list string) (fs : FS) :
  let r := hashFiles files fs in
  (forall name,
     is_Some (r.1 !! name)
     <-> exists file data,
           file ∈ files /\ path.Base file = name /\ fs file = inl data)
  /\ sent r.2 = [] /\ adds r.2 = []
  /\ ((forall file, file ∈ files -> exists err, fs file = inr err) -> r.1 = ∅).
Proof.
  intros r. subst r. unfold hashFiles.
  destruct (hashFiles_range_run ∅ files fs) as (-> & _ & Hs & Ha).
  assert (Hkeys : forall name,
    is_Some (populate fs ∅ files !! name)
    <-> exists file data,
          file ∈ files /\ path.Base file = name /\ fs file = inl data).
  { intros name. rewrite populate_is_Some, lookup_empty. split.
    - intros [H|H]; [by destruct H | done].
    - by right. }
  split_and!; [exact Hkeys | exact Hs | exact Ha |].
  intros Hbad. apply map_eq. intros name. rewrite lookup_empty.
  apply eq_None_not_Some. rewrite Hkeys. intros (file & data & Hin & _ & E).
  destruct (Hbad file Hin) as [err Herr]. congruence.
Qed.

(** X5. When the base names of the listed files are pairwise different, the
    store [hashFiles] returns does not depend on the order of the list. *)
Theorem hashFiles_order (files files' : list string) (fs : FS) :
  NoDup (path.Base <$> files) ->
  files ≡ₚ files' ->
  (hashFiles files fs).1 = (hashFiles files' fs).1.
Proof.
  intros Hnd Hp. unfold hashFiles.
  destruct (hashFiles_range_run ∅ files fs) as (-> & _).
  destruct (hashFiles_range_run ∅ files' fs) as (-> & _).
  by apply populate_permutation.
Qed.

Lemma hashFiles_order_witness :
  let files := ["/etc/a.txt"; "/etc/b.txt"]%string in
  let files' := ["/etc/b.txt"; "/etc/a.txt"]%string in
  let fs := disk [("/etc/a.txt", "hello"); ("/etc/b.txt", "world")]%string in
  NoDup (path.Base <$> files) /\ files ≡ₚ files'
  /\ (hashFiles files fs).1 = (hashFiles files' fs).1.
Proof.
  cbv zeta.
  assert (H1 : NoDup (path.Base <$> ["/etc/a.txt"; "/etc/b.txt"]%string)).
  { apply (bool_decide_unpack _). vm_compute. exact I. }
  assert (H2 : ["/etc/a.txt"; "/etc/b.txt"]%string
               ≡ₚ ["/etc/b.txt"; "/etc/a.txt"]%string) by apply perm_swap.
  split; [exact H1|]. split; [exact H2|].
  exact (hashFiles_order _ _ _ H1 H2).
Defined.

(** ** [watchTimed] *)

Lemma watchTimed_range_adds (hashes : Store) (change : bool) (files : list string)
  (fs : FS) :
  adds (watchTimed_range hashes change files fs).2 = [].
Proof.
  revert hashes change. induction files as [|file files IH]; intros hashes change;
    [done|].
  cbn [watchTimed_range]. run.
  pose proof (fileChanged_trace hashes file fs) as (_ & _ & Ha).
  destruct (fileChanged hashes file fs) as [[[] h] t]; run; cbn [snd] in Ha.
  - specialize (IH h true). destruct (watchTimed_range h true files fs) as [r t'].
    cbn [snd] in *. rewrite adds_app, Ha. cbn. exact IH.
  - specialize (IH h change). destruct (watchTimed_range h change files fs) as [r t'].
    cbn [snd] in *. by rewrite adds_app, Ha.
Qed.

(** A sweep over files whose digests the store already gives. *)
Lemma watchTimed_range_settled (hashes : Store) (change : bool)
  (files : list string) (fs : FS) :
  (forall file data, file ∈ files -> fs file = inl data ->
     default zeroDigest (hashes !! path.Base file) = sha256.Sum256 data) ->
  (watchTimed_range hashes change files fs).1 = (change, hashes).
Proof.
  induction files as [|file files IH]; intros Hs; [done|].
  cbn [watchTimed_range]. run.
  assert (H : (fileChanged hashes file fs).1 = (false, hashes)).
  { apply fileChanged_settled. intros data E. apply (Hs file data); [by left | done]. }
  destruct (fileChanged hashes file fs) as [[c h] t]. cbn [fst] in H.
  injection H as -> ->.
  assert (IH' : (watchTimed_range hashes change files fs).1 = (change, hashes)).
  { apply IH. intros f d Hin. apply Hs. by right. }
  destruct (watchTimed_range hashes change files fs) as [r t']. by cbn [fst] in *.
Qed.

Lemma watchTimed_tick_settled (files : list string) (hashes : Store) (fs : FS) :
  (forall file data, file ∈ files -> fs file = inl data ->
     default zeroDigest (hashes !! path.Base file) = sha256.Sum256 data) ->
  (watchTimed_tick files hashes fs).1 = hashes
  /\ sent (watchTimed_tick files hashes fs).2 = [].
Proof.
  intros Hs. destruct (watchTimed_tick_run files hashes fs) as (H1 & _ & H2).
  destruct (watchTimed_range_run hashes false files fs) as (H3 & _).
  pose proof (watchTimed_range_settled hashes false files fs Hs) as H.
  rewrite H1, H2, <- H3, H. done.
Qed.

Lemma checked_cons (fs : FS) (hashes : Store) (file : string) (l : list string) :
  checked fs hashes (file :: l) = checked fs (fileChanged hashes file fs).1.2 l.
Proof. reflexivity. Qed.

Lemma checked_lookup_ne (fs : FS) (hashes : Store) (l : list string)
  (name : string) :
  (forall file, file ∈ l -> path.Base file <> name) ->
  checked fs hashes l !! name = hashes !! name.
Proof.
  revert hashes. induction l as [|file l IH]; intros hashes Hl; [done|].
  rewrite checked_cons, IH by (intros f Hin; apply Hl; by right).
  apply fileChanged_lookup_ne. intros ->. by apply (Hl file); [left|].
Qed.

(** With base names that are all different, the checks of a sweep do not
    disturb one another. *)
Lemma checked_lookup (fs : FS) (hashes : Store) (l1 l2 : list string)
  (file : string) :
  NoDup (path.Base <$> (l1 ++ file :: l2)) ->
  checked fs hashes (l1 ++ file :: l2) !! path.Base file
  = (fileChanged hashes file fs).1.2 !! path.Base file.
Proof.
  intros Hnd. rewrite fmap_app, fmap_cons in Hnd.
  apply NoDup_app in Hnd as (_ & Hl1 & Hnd). apply NoDup_cons in Hnd as [Hl2 _].
  assert (Hk : checked fs hashes l1 !! path.Base file = hashes !! path.Base file).
  { apply checked_lookup_ne. intros f Hin Hb.
    apply (Hl1 (path.Base f)); [by apply list_elem_of_fmap_2|].
    rewrite Hb. by left. }
  rewrite checked_app, checked_cons, checked_lookup_ne.
  - destruct (fs file) as [data|err] eqn:E.
    + rewrite !(fileChanged_ok _ _ _ _ E), Hk.
      destruct (bytes_Equal _ _); cbn [fst snd]; [done|].
      by rewrite !lookup_insert_eq.
    + by rewrite !(fileChanged_error _ _ _ _ E).
  - intros f Hin Hb. apply Hl2. rewrite <- Hb. by apply list_elem_of_fmap_2.
Qed.

Lemma checked_tracks (fs : FS) (hashes : Store) (files : list string)
  (file : string) (data : list byte) :
  NoDup (path.Base <$> files) -> file ∈ files -> fs file = inl data ->
  default zeroDigest (checked fs hashes files !! path.Base file)
  = sha256.Sum256 data.
Proof.
  intros Hnd Hin E. apply list_elem_of_split in Hin as (l1 & l2 & ->).
  rewrite checked_lookup by done. by apply fileChanged_index.
Qed.

(** If no check of a sweep reports a change, every file of the sweep was
    checked on the store the sweep started from, and left it as it was. *)
Lemma watchTimed_range_unchanged (hashes : Store) (files : list string) (fs : FS) :
  (watchTimed_range hashes false files fs).1.1 = false ->
  forall file, file ∈ files -> (fileChanged hashes file fs).1 = (false, hashes).
Proof.
  intros Hflag file Hin. apply list_elem_of_split in Hin as (l1 & l2 & ->).
  assert (Hall : forall l f l',
    l1 ++ file :: l2 = l ++ f :: l' ->
    (fileChanged (checked fs hashes l) f fs).1.1 = false).
  { intros l f l' Heq. apply not_true_is_false. intros Ht.
    assert ((watchTimed_range hashes false (l1 ++ file :: l2) fs).1.1 = true)
      as Hc by (apply watchTimed_range_change; right; by exists l, f, l').
    congruence. }
  assert (Hsame : forall l l', l1 ++ file :: l2 = l ++ l' ->
            checked fs hashes l = hashes).
  { induction l as [|f l IH] using rev_ind; intros l' Heq; [done|].
    rewrite <- app_assoc in Heq. cbn [app] in Heq.
    rewrite checked_app, checked_cons, (IH _ Heq). cbn [checked fold_left].
    pose proof (Hall l f l' Heq) as Hf. rewrite (IH _ Heq) in Hf.
    destruct (fileChanged_cases hashes f fs) as [H|(d & _ & _ & H)];
      rewrite H in Hf |- *; [done | discriminate Hf]. }
  pose proof (Hall l1 file l2 eq_refl) as Hf.
  rewrite (Hsame l1 (file :: l2) eq_refl) in Hf.
  destruct (fileChanged_cases hashes file fs) as [H|(d & _ & _ & H)];
    [done | rewrite H in Hf; discriminate Hf].
Qed.

(** X6. A tick checks every watched file, once and in the order of the list,
    whether or not an earlier file changed or failed to be read, and it
    registers nothing with a watcher. *)
Theorem watchTimed_tick_checks_all (files : list string) (hashes : Store)
  (fs : FS) :
  reads (watchTimed_tick files hashes fs).2 = files
  /\ adds (watchTimed_tick files hashes fs).2 = [].
Proof.
  destruct (watchTimed_tick_run files hashes fs) as (_ & Hr & _).
  split; [exact Hr|].
  unfold watchTimed_tick. run.
  pose proof (watchTimed_range_adds hashes false files fs) as Ha.
  destruct (watchTimed_range hashes false files fs) as [[[] h] t]; run;
    cbn [snd] in *; unfold adds in *; cbn; by rewrite omap_app, Ha.
Qed.

(** X7. With watched files of pairwise different base names, a tick leaves
    the store in step with the files: indexing it at the base name of a file
    that could be read gives the digest of the bytes read, the entry of a
    file that could not be read is kept, and no other key is touched. *)
Theorem watchTimed_tick_tracks (files : list string) (hashes : Store) (fs : FS) :
  NoDup (path.Base <$> files) ->
  let after := (watchTimed_tick files hashes fs).1 in
  (forall file, file ∈ files ->
     match fs file with
     | inl data =>
         default zeroDigest (after !! path.Base file) = sha256.Sum256 data
     | inr _ => after !! path.Base file = hashes !! path.Base file
     end)
  /\ (forall name, name ∉ path.Base <$> files -> after !! name = hashes !! name).
Proof.
  intros Hnd after. subst after.
  destruct (watchTimed_tick_run files hashes fs) as (-> & _). split.
  - intros file Hin. destruct (fs file) as [data|err] eqn:E.
    + by apply checked_tracks.
    + apply list_elem_of_split in Hin as (l1 & l2 & ->).
      rewrite checked_lookup by done. by rewrite (fileChanged_error _ _ _ _ E).
  - intros name Hn. apply checked_lookup_ne. intros f Hin Hb. apply Hn.
    rewrite <- Hb. by apply list_elem_of_fmap_2.
Qed.

Lemma watchTimed_tick_tracks_witness :
  let files := ["/etc/a.txt"; "/etc/b.txt"]%string in
  let fs := disk [("/etc/a.txt", "hello")]%string in
  NoDup (path.Base <$> files)
  /\ (watchTimed_tick files ∅ fs).1 !! "c.txt"%string
     = (∅ : Store) !! "c.txt"%string.
Proof.
  cbv zeta.
  assert (H : NoDup (path.Base <$> ["/etc/a.txt"; "/etc/b.txt"]%string)).
  { apply (bool_decide_unpack _). vm_compute. exact I. }
  split; [exact H|].
  apply (proj2 (watchTimed_tick_tracks _ ∅ (disk [("/etc/a.txt", "hello")]%string) H)).
  apply (bool_decide_unpack _). vm_compute. exact I.
Defined.

(** X8. With watched files of pairwise different base names, a tick that
    follows another one on an unchanged file system sends nothing and keeps
    the store, whatever the first tick found. *)
Theorem watchTimed_tick_quiescent (files : list string) (hashes : Store) (fs : FS) :
  NoDup (path.Base <$> files) ->
  let r1 := watchTimed_tick files hashes fs in
  (watchTimed_tick files r1.1 fs).1 = r1.1
  /\ sent (watchTimed_tick files r1.1 fs).2 = [].
Proof.
  intros Hnd r1. subst r1. apply watchTimed_tick_settled.
  intros file data Hin E.
  destruct (watchTimed_tick_run files hashes fs) as (-> & _).
  by apply checked_tracks.
Qed.

Lemma watchTimed_tick_quiescent_witness :
  let files := ["/etc/a.txt"; "/etc/b.txt"]%string in
  let fs := disk [("/etc/a.txt", "hello")]%string in
  NoDup (path.Base <$> files)
  /\ sent (watchTimed_tick files (watchTimed_tick files ∅ fs).1 fs).2 = [].
Proof.
  cbv zeta.
  assert (H : NoDup (path.Base <$> ["/etc/a.txt"; "/etc/b.txt"]%string)).
  { apply (bool_decide_unpack _). vm_compute. exact I. }
  split; [exact H|].
  exact (proj2 (watchTimed_tick_quiescent _ ∅
                  (disk [("/etc/a.txt", "hello")]%string) H)).
Defined.

(** X9. Two watched files with the same base name and contents of different
    digests share one entry of the store: each sweep then sends a
    notification, from any store, also when no file changed between
    sweeps. *)
Theorem watchTimed_tick_shared_base_name (files : list string) (hashes : Store)
  (fs : FS) (file1 file2 : string) (data1 data2 : list byte) :
  file1 ∈ files -> file2 ∈ files ->
  path.Base file1 = path.Base file2 ->
  fs file1 = inl data1 -> fs file2 = inl data2 ->
  sha256.Sum256 data1 <> sha256.Sum256 data2 ->
  sent (watchTimed_tick files hashes fs).2 = [true].
Proof.
  intros Hin1 Hin2 Hb E1 E2 Hd.
  destruct (watchTimed_tick_run files hashes fs) as (_ & _ & ->).
  destruct (watchTimed_range hashes false files fs).1.1 eqn:Hflag; [done|].
  exfalso. apply Hd.
  pose proof (watchTimed_range_unchanged _ _ _ Hflag file1 Hin1) as H1.
  pose proof (watchTimed_range_unchanged _ _ _ Hflag file2 Hin2) as H2.
  rewrite (fileChanged_ok _ _ _ _ E1) in H1.
  rewrite (fileChanged_ok _ _ _ _ E2) in H2. rewrite Hb in H1.
  destruct (bytes_Equal _ (sha256.Sum256 data1)) eqn:Eq1; [|discriminate H1].
  destruct (bytes_Equal _ (sha256.Sum256 data2)) eqn:Eq2; [|discriminate H2].
  apply bytes_Equal_true in Eq1, Eq2. congruence.
Qed.

Lemma watchTimed_tick_shared_base_name_witness :
  let files := ["/a/cert.pem"; "/b/cert.pem"]%string in
  let fs := disk [("/a/cert.pem", "hello"); ("/b/cert.pem", "world")]%string in
  path.Base "/a/cert.pem" = path.Base "/b/cert.pem"
  /\ sha256.Sum256 (bytes "hello") <> sha256.Sum256 (bytes "world")
  /\ sent (watchTimed_tick files (hashFiles files fs).1 fs).2 = [true].
Proof.
  cbv zeta.
  assert (H1 : path.Base "/a/cert.pem" = path.Base "/b/cert.pem") by reflexivity.
  assert (H2 : sha256.Sum256 (bytes "hello") <> sha256.Sum256 (bytes "world"))
    by (vm_compute; discriminate).
  split; [exact H1|]. split; [exact H2|].
  apply (watchTimed_tick_shared_base_name _ _ _ "/a/cert.pem" "/b/cert.pem"
           (bytes "hello") (bytes "world"));
    [by left | by right; left | exact H1 | reflexivity | reflexivity | exact H2].
Defined.

(** X10. A tick during which no watched file can be read sends nothing and
    leaves the store as it was. *)
Theorem watchTimed_tick_unreadable (files : list string) (hashes : Store)
  (fs : FS) :
  (forall file, file ∈ files -> exists err, fs file = inr err) ->
  (watchTimed_tick files hashes fs).1 = hashes
  /\ sent (watchTimed_tick files hashes fs).2 = [].
Proof.
  intros Hbad. apply watchTimed_tick_settled. intros file data Hin E.
  destruct (Hbad file Hin) as [err Herr]. congruence.
Qed.

Lemma watchTimed_tick_unreadable_witness :
  let files := ["/etc/a.txt"; "/etc/b.txt"]%string in
  let hashes : Store := {[ "a.txt"%string := sha256.Sum256 (bytes "hello") ]} in
  (forall file, file ∈ files -> exists err, disk [] file = inr err)
  /\ (watchTimed_tick files hashes (disk [])).1 = hashes.
Proof.
  cbv zeta.
  assert (H : forall file, file ∈ ["/etc/a.txt"; "/etc/b.txt"]%string ->
                exists err, disk [] file = inr err)
    by (intros file _; eexists; reflexivity).
  split; [exact H|]. exact (proj1 (watchTimed_tick_unreadable _ _ _ H)).
Defined.

(** ** Runs *)

Lemma iterate_cons {I : Type} (step : Store -> I -> M Store) (fs : FS) (i : I)
  (inputs : list (FS * I)) (start : Store * list effect) :
  iterate step ((fs, i) :: inputs) start
  = iterate step inputs ((step start.1 i fs).1, start.2 ++ (step start.1 i fs).2).
Proof.
  cbn [iterate fold_left fst snd]. by destruct (step start.1 i fs).
Qed.

(** The sends of a run: one [true] at most for each input that [counts]. *)
Lemma iterate_sent {I : Type} (step : Store -> I -> M Store) (counts : I -> bool)
  (inputs : list (FS * I)) (start : Store * list effect) :
  (forall h i fs,
     sent (step h i fs).2 = []
     \/ counts i = true /\ sent (step h i fs).2 = [true]) ->
  exists k,
    (k <= length (List.filter (fun x => counts x.2) inputs))%nat
    /\ sent (iterate step inputs start).2 = sent start.2 ++ repeat true k.
Proof.
  intros Hstep. revert start.
  induction inputs as [|[fs i] inputs IH]; intros start.
  - exists 0%nat. cbn. by rewrite app_nil_r.
  - rewrite iterate_cons.
    destruct (IH ((step start.1 i fs).1, start.2 ++ (step start.1 i fs).2))
      as (k & Hk & ->).
    cbn [fst snd List.filter]. rewrite sent_app.
    destruct (Hstep start.1 i fs) as [->|[-> ->]].
    + exists k. rewrite app_nil_r. split; [|done].
      destruct (counts i); cbn [length]; lia.
    + exists (S k). rewrite <- app_assoc. split; [cbn [length]; lia | done].
Qed.

(** A run whose steps all keep the store [h] and send nothing. *)
Lemma iterate_settled {I : Type} (step : Store -> I -> M Store)
  (inputs : list (FS * I)) (h : Store) (t : list effect) :
  (forall x, x ∈ inputs ->
     (step h x.2 x.1).1 = h /\ sent (step h x.2 x.1).2 = []) ->
  (iterate step inputs (h, t)).1 = h
  /\ sent (iterate step inputs (h, t)).2 = sent t.
Proof.
  revert t. induction inputs as [|[fs i] inputs IH]; intros t Hs; [done|].
  rewrite iterate_cons. cbn [fst snd].
  destruct (Hs (fs, i)) as [H1 H2]; [by left|]. cbn [fst snd] in H1, H2.
  rewrite H1.
  destruct (IH (t ++ (step h i fs).2)) as [IH1 IH2];
    [intros x Hx; apply Hs; by right|].
  rewrite IH1, IH2, sent_app, H2, app_nil_r. done.
Qed.

(** The trace a run starts from is a prefix of its trace and has no other
    part in it. *)
Lemma iterate_trace {I : Type} (step : Store -> I -> M Store)
  (inputs : list (FS * I)) (h : Store) (t : list effect) :
  iterate step inputs (h, t)
  = ((iterate step inputs (h, [])).1, t ++ (iterate step inputs (h, [])).2).
Proof.
  revert h t. induction inputs as [|[fs i] inputs IH]; intros h t.
  - cbn. by rewrite app_nil_r.
  - rewrite !iterate_cons. cbn [fst snd app].
    rewrite (IH _ (t ++ _)), (IH _ (step h i fs).2). cbn [fst snd].
    by rewrite app_assoc.
Qed.

Lemma populate_index (fs : FS) (hashes : Store) (files : list string)
  (file : string) (data : list byte) :
  NoDup (path.Base <$> files) -> file ∈ files -> fs file = inl data ->
  populate fs hashes files !! path.Base file = Some (sha256.Sum256 data).
Proof.
  intros Hnd Hin E. apply list_elem_of_split in Hin as (l1 & l2 & ->).
  rewrite fmap_app, fmap_cons in Hnd.
  apply NoDup_app in Hnd as (_ & _ & Hnd). apply NoDup_cons in Hnd as [Hl2 _].
  rewrite populate_app, populate_cons, populate_frame, E.
  - apply lookup_insert_eq.
  - intros f Hin Hb. exfalso. apply Hl2. rewrite <- Hb.
    by apply list_elem_of_fmap_2.
Qed.

Lemma keysWatched_size (files : list string) (hashes : Store) :
  keysWatched files hashes -> (size hashes <= length files)%nat.
Proof.
  intros Hk. rewrite <- length_map_to_list, <- (length_fmap fst),
    <- (length_fmap path.Base files).
  apply submseteq_length, NoDup_submseteq; [apply NoDup_fst_map_to_list|].
  intros name Hin. apply list_elem_of_fmap in Hin as ([k v] & -> & Hin).
  apply elem_of_map_to_list in Hin. cbn [fst].
  destruct (Hk k) as (file & Hf & <-); [by eexists|].
  by apply list_elem_of_fmap_2.
Qed.

Lemma watchTimed_tick_sent (files : list string) (hashes : Store) (fs : FS) :
  sent (watchTimed_tick files hashes fs).2 = []
  \/ sent (watchTimed_tick files hashes fs).2 = [true].
Proof.
  destruct (watchTimed_tick_run files hashes fs) as (_ & _ & ->).
  destruct (watchTimed_range hashes false files fs).1.1; auto.
Qed.

(** X11. In timed mode with watched files of pairwise different base names:
    as long as every tick finds the watched files as they were when the
    watcher started (same bytes, or the same failure to read), the run sends
    nothing and the store stays the one of the initial population. *)
Theorem watchTimed_unchanged_files (files : list string) (duration : Z)
  (fs0 : FS) (ticks : list (FS * unit)) :
  NoDup (path.Base <$> files) ->
  (forall tick file, tick ∈ ticks -> file ∈ files -> tick.1 file = fs0 file) ->
  (watchTimed files duration fs0 ticks).1 = (hashFiles files fs0).1
  /\ sent (watchTimed files duration fs0 ticks).2 = [].
Proof.
  intros Hnd Hsame. unfold watchTimed.
  destruct (hashFiles_range_run ∅ files fs0) as (Hs & _ & Hsent & _).
  fold (hashFiles files) in Hs, Hsent.
  destruct (hashFiles files fs0) as [h0 t0] eqn:E0. cbn [fst snd] in *.
  rewrite <- Hsent. apply iterate_settled.
  intros [fs []] Hin. cbn [fst snd].
  assert (Hin' : (fs, tt) ∈ ticks)
    by (destruct (duration <=? 0); [by apply elem_of_nil in Hin | done]).
  apply watchTimed_tick_settled. intros file data Hf E.
  pose proof (Hsame (fs, tt) file Hin' Hf) as Hx. cbn [fst] in Hx.
  rewrite Hx in E. by rewrite Hs, (populate_index _ _ _ _ _ Hnd Hf E).
Qed.

Lemma watchTimed_unchanged_files_witness :
  let files := ["/etc/a.txt"; "/etc/b.txt"]%string in
  let fs0 := disk [("/etc/a.txt", "hello")]%string in
  let ticks := [(fs0, tt); (fs0, tt)] in
  NoDup (path.Base <$> files)
  /\ (forall tick file, tick ∈ ticks -> file ∈ files -> tick.1 file = fs0 file)
  /\ sent (watchTimed files 1000 fs0 ticks).2 = [].
Proof.
  cbv zeta.
  assert (H1 : NoDup (path.Base <$> ["/etc/a.txt"; "/etc/b.txt"]%string)).
  { apply (bool_decide_unpack _). vm_compute. exact I. }
  assert (H2 : forall (tick : FS * unit) (file : string),
            tick ∈ [(disk [("/etc/a.txt", "hello")]%string, tt);
                    (disk [("/etc/a.txt", "hello")]%string, tt)] ->
            file ∈ ["/etc/a.txt"; "/etc/b.txt"]%string ->
            tick.1 file = disk [("/etc/a.txt", "hello")]%string file).
  { intros tick file Hin _.
    repeat (apply elem_of_cons in Hin as [->|Hin]; [reflexivity|]).
    by apply elem_of_nil in Hin. }
  split; [exact H1|]. split; [exact H2|].
  exact (proj2 (watchTimed_unchanged_files _ 1000 _ _ H1 H2)).
Defined.

(** X12. In timed mode only [true] is ever sent on [notify], at most once for
    each tick received, and the store never holds more entries than there
    are watched files.  With a duration that is not positive no tick is
    received: the run is the initial population and nothing else. *)
Theorem watchTimed_bounds (files : list string) (duration : Z) (fs0 : FS)
  (ticks : list (FS * unit)) :
  (exists k, (k <= length ticks)%nat
     /\ sent (watchTimed files duration fs0 ticks).2 = repeat true k)
  /\ (size (watchTimed files duration fs0 ticks).1 <= length files)%nat
  /\ (duration <= 0 -> watchTimed files duration fs0 ticks = hashFiles files fs0).
Proof.
  split_and!.
  - unfold watchTimed.
    destruct (iterate_sent (fun hashes (_ : unit) => watchTimed_tick files hashes)
                (fun _ => true) (if duration <=? 0 then [] else ticks)
                (hashFiles files fs0)) as (k & Hk & ->).
    { intros h i fs. destruct (watchTimed_tick_sent files h fs); auto. }
    destruct (hashFiles_range_run ∅ files fs0) as (_ & _ & Hsent & _).
    fold (hashFiles files) in Hsent. rewrite Hsent. exists k. split; [|done].
    etrans; [exact Hk|]. etrans; [apply List.filter_length_le|].
    destruct (duration <=? 0); cbn [length]; lia.
  - apply keysWatched_size. unfold watchTimed. eapply evolves_keysWatched.
    + apply (iterate_evolves files). intros h _ fs.
      apply watchTimed_tick_evolves.
    + apply hashFiles_keysWatched.
  - intros Hd. unfold watchTimed. rewrite (proj2 (Z.leb_le _ _) Hd). done.
Qed.

(** ** [watchAuto] *)

Lemma watchAuto_register_run (Dir : string -> string) (files : list string)
  (fs : FS) :
  watchAuto_register Dir files fs
  = (tt, flat_map (fun file => [Add file; Add (Dir file)]) files).
Proof.
  induction files as [|file files IH]; [done|].
  cbn [watchAuto_register flat_map]. run. by rewrite IH.
Qed.

Lemma watchAuto_register_trace (Dir : string -> string) (files : list string) :
  let t := flat_map (fun file => [Add file; Add (Dir file)]) files in
  reads t = [] /\ sent t = []
  /\ adds t = flat_map (fun file => [file; Dir file]) files.
Proof.
  induction files as [|f l (IH1 & IH2 & IH3)]; [done|].
  cbn [flat_map app]. unfold reads, sent, adds in *. cbn.
  by rewrite IH1, IH2, IH3.
Qed.

Lemma matched_base (event : Event) (files : list string) (file : string) :
  matched event files = Some file ->
  path.Base (Name event) = path.Base file.
Proof. intros H. apply find_some in H as [_ H]. by apply String.eqb_eq. Qed.

(** The trace of one event, by what the event is matched with. *)
Lemma watchAuto_range_trace (event : Event) (hashes : Store)
  (files : list string) (fs : FS) :
  let t := (watchAuto_range event hashes files fs).2 in
  match matched event files with
  | Some file =>
      reads t = [file]
      /\ adds t = (if Z.land (Op event) Create =? Create then [file] else [])
      /\ sent t = (if (fileChanged hashes file fs).1.1 then [true] else [])
  | None => t = []
  end.
Proof.
  intros t. subst t. rewrite watchAuto_range_run.
  destruct (matched event files) as [file|]; [|done].
  rewrite watchAuto_matched_run. cbn zeta. cbn [snd].
  pose proof (fileChanged_trace hashes file fs) as (Hr & Hs & Ha).
  rewrite !reads_app, !adds_app, !sent_app, Hr, Hs, Ha.
  by destruct (Z.land (Op event) Create =? Create),
       ((fileChanged hashes file fs).1.1).
Qed.

Lemma watchAuto_select_sent (files : list string) (hashes : Store)
  (r : received) (fs : FS) :
  sent (watchAuto_select files hashes r fs).2 = []
  \/ (if r is FromEvents _ then true else false) = true
     /\ sent (watchAuto_select files hashes r fs).2 = [true].
Proof.
  destruct r as [event|err]; [|by left]. cbn [watchAuto_select].
  pose proof (watchAuto_range_trace event hashes files fs) as H. cbn zeta in H.
  destruct (matched event files) as [file|].
  - destruct H as (_ & _ & ->).
    destruct ((fileChanged hashes file fs).1.1); auto.
  - rewrite H. by left.
Qed.

(** X13. Start of [watchAuto].  The files are hashed first.  If the fsnotify
    watcher cannot be created the function panics there: nothing is
    registered, nothing is sent and no event is handled.  Otherwise each
    file is registered and, right after it, its directory, in the order of
    the list, before any event is handled, and nothing is sent on the way. *)
Theorem watchAuto_startup (Dir : string -> string) (files : list string)
  (fs0 : FS) :
  (forall err inputs,
     watchAuto Dir files (Some err) fs0 inputs = (None, (hashFiles files fs0).2))
  /\ (let r := watchAuto Dir files None fs0 [] in
      r.1 = Some (hashFiles files fs0).1
      /\ reads r.2 = files
      /\ adds r.2 = flat_map (fun file => [file; Dir file]) files
      /\ sent r.2 = [])
  /\ (forall inputs,
        exists t,
          (watchAuto Dir files None fs0 inputs).2
          = (watchAuto Dir files None fs0 []).2 ++ t).
Proof.
  split_and!.
  - intros err inputs. unfold watchAuto. by destruct (hashFiles files fs0).
  - unfold watchAuto. rewrite watchAuto_register_run.
    destruct (hashFiles_range_run ∅ files fs0) as (_ & Hr & Hs & Ha).
    fold (hashFiles files) in Hr, Hs, Ha.
    destruct (hashFiles files fs0) as [h0 t0]. cbn [panicOnError iterate fold_left].
    cbn [fst snd] in *.
    destruct (watchAuto_register_trace Dir files) as (Hr1 & Hs1 & Ha1).
    rewrite reads_app, adds_app, sent_app, Hr, Hs, Ha, Hr1, Hs1, Ha1.
    by rewrite app_nil_r.
  - intros inputs. unfold watchAuto. rewrite watchAuto_register_run.
    destruct (hashFiles files fs0) as [h0 t0]. cbn [panicOnError].
    rewrite iterate_trace. cbn [iterate fold_left snd]. by eexists.
Qed.

(** X14. An error received from the watcher's error channel changes nothing
    but the log: the run with the error has the store, the reads, the
    registrations and the sends of the run without it. *)
Theorem watchAuto_error_skipped (Dir : string -> string) (files : list string)
  (newWatcher : option string) (fs0 fs : FS) (err : string)
  (l1 l2 : list (FS * received)) :
  let r := watchAuto Dir files newWatcher fs0 (l1 ++ (fs, FromErrors err) :: l2) in
  let r' := watchAuto Dir files newWatcher fs0 (l1 ++ l2) in
  r.1 = r'.1 /\ reads r.2 = reads r'.2 /\ adds r.2 = adds r'.2
  /\ sent r.2 = sent r'.2.
Proof.
  intros r r'. subst r r'. unfold watchAuto.
  destruct (hashFiles files fs0) as [h0 t0].
  destruct (panicOnError newWatcher); [|done].
  destruct (watchAuto_register Dir files fs0) as [[] t1].
  rewrite !iterate_app, iterate_cons.
  destruct (iterate (watchAuto_select files) l1 (h0, t0 ++ t1)) as [h t].
  cbn [watchAuto_select fst snd]. run.
  rewrite (iterate_trace _ l2 h (t ++ _)), (iterate_trace _ l2 h t).
  cbn [fst snd]. rewrite !reads_app, !adds_app, !sent_app. cbn. 
  by rewrite !app_nil_r.
Qed.

(** X15. While handling an event the watcher registers nothing but watched
    files, and only on a [Create]: the one file the event is matched with is
    registered when the operation has the [Create] bit, and nothing is
    registered when it has not, or when no watched file has the base name of
    the event. *)
Theorem watchAuto_range_registers (event : Event) (hashes : Store)
  (files : list string) (fs : FS) :
  let t := (watchAuto_range event hashes files fs).2 in
  adds t
  = match matched event files with
    | Some file => if Z.land (Op event) Create =? Create then [file] else []
    | None => []
    end
  /\ (forall name, name ∈ adds t -> name ∈ files)
  /\ (Z.land (Op event) Create <> Create -> adds t = []).
Proof.
  intros t. subst t.
  pose proof (watchAuto_range_trace event hashes files fs) as H. cbn zeta in H.
  destruct (matched event files) as [file|] eqn:Hm.
  - destruct H as (_ & -> & _). split_and!; [done | |].
    + intros name Hin. destruct (Z.land (Op event) Create =? Create).
      * apply list_elem_of_singleton in Hin as ->. by apply matched_elem_of in Hm.
      * by apply elem_of_nil in Hin.
    + intros Hne. by rewrite (proj2 (Z.eqb_neq _ _) Hne).
  - rewrite H. split_and!; [done | | done].
    intros name Hin. by apply elem_of_nil in Hin.
Qed.

(** X16. An event touches no entry of the store but the one keyed by the base
    name of the event's own target. *)
Theorem watchAuto_range_frame (event : Event) (hashes : Store)
  (files : list string) (fs : FS) (name : string) :
  name <> path.Base (Name event) ->
  (watchAuto_range event hashes files fs).1 !! name = hashes !! name.
Proof.
  intros Hne. rewrite watchAuto_range_run.
  destruct (matched event files) as [file|] eqn:Hm; [|done].
  rewrite watchAuto_matched_run. cbn zeta. cbn [fst].
  apply fileChanged_lookup_ne. by rewrite <- (matched_base _ _ _ Hm).
Qed.

Lemma watchAuto_range_frame_witness :
  let event := {| Name := "/etc/a.txt"; Op := Write |} in
  let hashes : Store := {[ "b.txt"%string := sha256.Sum256 (bytes "hello") ]} in
  let files := ["/etc/a.txt"; "/etc/b.txt"]%string in
  let fs := disk [("/etc/a.txt", "world")]%string in
  "b.txt"%string <> path.Base (Name event)
  /\ (watchAuto_range event hashes files fs).1 !! "b.txt"%string
     = hashes !! "b.txt"%string.
Proof.
  cbv zeta.
  assert (H : "b.txt"%string
              <> path.Base (Name {| Name := "/etc/a.txt"; Op := Write |}))
    by (vm_compute; discriminate).
  split; [exact H|]. exact (watchAuto_range_frame _ _ _ _ _ H).
Defined.

(** X17. In event-driven mode only [true] is ever sent on [notify], at most
    once for each event received (errors give none), and the store never
    holds more entries than there are watched files. *)
Theorem watchAuto_bounds (Dir : string -> string) (files : list string)
  (newWatcher : option string) (fs0 : FS) (inputs : list (FS * received)) :
  let events :=
    List.filter (fun x => if x.2 is FromEvents _ then true else false) inputs in
  (exists k, (k <= length events)%nat
     /\ sent (watchAuto Dir files newWatcher fs0 inputs).2 = repeat true k)
  /\ (forall hashes,
        (watchAuto Dir files newWatcher fs0 inputs).1 = Some hashes ->
        (size hashes <= length files)%nat).
Proof.
  intros events. subst events. unfold watchAuto.
  destruct (hashFiles_range_run ∅ files fs0) as (_ & _ & Hsent & _).
  fold (hashFiles files) in Hsent.
  pose proof (hashFiles_keysWatched files fs0) as Hk.
  destruct (hashFiles files fs0) as [h0 t0]. cbn [fst snd] in *.
  destruct newWatcher as [err|]; cbn [panicOnError].
  { split; [|done]. exists 0%nat. cbn [fst snd]. split; [lia | by rewrite Hsent]. }
  rewrite watchAuto_register_run.
  set (t1 := flat_map (fun file => [Add file; Add (Dir file)]) files).
  assert (Ht1 : sent t1 = [])
    by (by destruct (watchAuto_register_trace Dir files) as (_ & ? & _)).
  destruct (iterate_sent (watchAuto_select files)
              (fun r => if r is FromEvents _ then true else false)
              inputs (h0, t0 ++ t1)) as (k & Hle & Hs).
  { intros h r fs. apply watchAuto_select_sent. }
  pose proof (iterate_evolves files _ inputs (h0, t0 ++ t1)
                (watchAuto_select_evolves files)) as Hev.
  destruct (iterate (watchAuto_select files) inputs (h0, t0 ++ t1)) as [h t].
  cbn [fst snd] in *. split.
  - exists k. split; [done|]. by rewrite Hs, sent_app, Hsent, Ht1.
  - intros hashes [= <-]. apply keysWatched_size.
    by apply (evolves_keysWatched files h0).
Qed.

(** ** The two modes together *)

(** X18. Both modes decide in the same way: handling an event matched with a
    file leaves the store, reads the file and sends on [notify] exactly as a
    timed sweep over that one file does, from the same store on the same
    file system. *)
Theorem watchAuto_range_as_sweep (event : Event) (hashes : Store)
  (files : list string) (fs : FS) (file : string) :
  matched event files = Some file ->
  let r := watchAuto_range event hashes files fs in
  let r' := watchTimed_tick [file] hashes fs in
  r.1 = r'.1 /\ reads r.2 = reads r'.2 /\ sent r.2 = sent r'.2.
Proof.
  intros Hm r r'. subst r r'.
  pose proof (watchAuto_range_trace event hashes files fs) as H. cbn zeta in H.
  rewrite Hm in H. destruct H as (Hr & _ & Hs).
  destruct (watchTimed_tick_run [file] hashes fs) as (H1 & H2 & H3).
  rewrite Hr, Hs, H1, H2, H3, watchAuto_range_run, Hm, watchAuto_matched_run.
  cbn zeta. cbn [fst checked fold_left watchTimed_range]. run.
  split_and!; [done | done |].
  by destruct (fileChanged hashes file fs) as [[[] h] t].
Qed.

Lemma watchAuto_range_as_sweep_witness :
  let event := {| Name := "/etc/a.txt"; Op := Write |} in
  let files := ["/etc/b.txt"; "/etc/a.txt"]%string in
  let fs := disk [("/etc/a.txt", "world")]%string in
  matched event files = Some "/etc/a.txt"%string
  /\ sent (watchAuto_range event ∅ files fs).2
     = sent (watchTimed_tick ["/etc/a.txt"%string] ∅ fs).2.
Proof.
  cbv zeta.
  assert (H : matched {| Name := "/etc/a.txt"; Op := Write |}
                ["/etc/b.txt"; "/etc/a.txt"]%string
              = Some "/etc/a.txt"%string) by reflexivity.
  split; [exact H|].
  exact (proj2 (proj2 (watchAuto_range_as_sweep _ ∅ _
                         (disk [("/etc/a.txt", "world")]%string) _ H))).
Defined.

(** X19. Events that repeat: a second event with the same base name, handled
    on an unchanged file system right after the first, sends nothing and
    keeps the store, whatever its operation.  The several events one write
    gives rise to make one notification at most. *)
Theorem watchAuto_range_repeated (event event' : Event) (hashes : Store)
  (files : list string) (fs : FS) :
  path.Base (Name event') = path.Base (Name event) ->
  let r1 := watchAuto_range event hashes files fs in
  (watchAuto_range event' r1.1 files fs).1 = r1.1
  /\ sent (watchAuto_range event' r1.1 files fs).2 = [].
Proof.
  intros Hb r1. subst r1.
  assert (Hm : matched event' files = matched event files)
    by (unfold matched; by rewrite Hb).
  assert (Hh : forall file, matched event files = Some file ->
            (watchAuto_range event hashes files fs).1
            = (fileChanged hashes file fs).1.2).
  { intros file Hf. by rewrite watchAuto_range_run, Hf, watchAuto_matched_run. }
  destruct (matched event files) as [file|] eqn:Hf.
  - rewrite (Hh file eq_refl).
    assert (H : (fileChanged (fileChanged hashes file fs).1.2 file fs).1
                = (false, (fileChanged hashes file fs).1.2)).
    { apply fileChanged_settled. intros data E. by apply fileChanged_index. }
    pose proof (watchAuto_range_trace event'
                  (fileChanged hashes file fs).1.2 files fs) as Ht.
    cbn zeta in Ht. rewrite Hm in Ht. destruct Ht as (_ & _ & ->).
    rewrite watchAuto_range_run, Hm, watchAuto_matched_run. cbn zeta.
    cbn [fst]. by rewrite H.
  - by rewrite !watchAuto_range_run, Hm, Hf.
Qed.

Lemma watchAuto_range_repeated_witness :
  let event := {| Name := "/etc/a.txt"; Op := Write |} in
  let event' := {| Name := "/etc/a.txt"; Op := Chmod |} in
  let files := ["/etc/a.txt"]%string in
  let fs := disk [("/etc/a.txt", "world")]%string in
  path.Base (Name event') = path.Base (Name event)
  /\ sent (watchAuto_range event' (watchAuto_range event ∅ files fs).1 files fs).2
     = [].
Proof.
  cbv zeta.
  assert (H : path.Base (Name {| Name := "/etc/a.txt"; Op := Chmod |})
              = path.Base (Name {| Name := "/etc/a.txt"; Op := Write |}))
    by reflexivity.
  split; [exact H|].
  exact (proj2 (watchAuto_range_repeated _ _ ∅ ["/etc/a.txt"%string]
                  (disk [("/etc/a.txt", "world")]%string) H)).
Defined.
